(** * gechtest: a shallow embedding of [include/gechtest.hpp]

    The header defines one class, [gech::test], whose single global
    instance [test_reg] carries the ledger [infos], the resource counter
    [rc] and the error tally [errors] of a test case, and a handful of
    macros ([TEST], [TEST_MAIN], [ALLOC], [DEALLOC], [ASSERT_*]) through
    which client code drives it.

    Modelling conventions.
    - The mutable global [test_reg], the standard output stream and the two
      clocks form the [world]; every member function is a computation in
      the state-and-failure monad [M] over that world.
    - [std::abort] ends a computation with [Aborted]; undefined behaviour
      of the C++ abstract machine ([back()] of an empty vector, branching
      on or calling through an uninitialised member, use of an invalidated
      iterator, signed overflow) ends it with [Undefined].
    - Members that a default-initialised [test_log_node] leaves without a
      value ([result], [func]) are [indeterminate] until assigned; copying
      such a node is allowed, inspecting the member is not.
    - [unsigned] is taken to be 32 bits wide and [int] 32 bits, two's
      complement; [unsigned] arithmetic wraps.
    - [std::cout << x] appends one [out_item] per inserted operand.
    - Client code (the case body and the functions given to
      [test_function]) is the sequence of macro uses and calls it makes on
      [test_reg], with [Work] standing for its own computation.  Time
      passes in [Work] only; the header's own operations take none.
    - Operands of an assertion are values of any two types that carry the
      six relational operators, each operator a total boolean function. *)

From Stdlib Require Import ZArith String Ascii Lia Bool.
From stdpp Require Import base option list.

Local Open Scope string_scope.
Local Open Scope list_scope.
Local Open Scope Z_scope.

(** ** Data model *)

(** [using function_test = void( * )();]  A function pointer is either
    null or the address of one of the client's functions, named by an
    identifier. *)
Inductive function_test := nullptr | fn (id : nat).

Inductive test_types := Eq | UnEq | Gt | Lt | GEq | LEq | MemLeak.

Inductive test_results := Error | Success | Critical.

#[global] Instance function_test_eq_dec : EqDecision function_test.
Proof. solve_decision. Defined.
#[global] Instance test_types_eq_dec : EqDecision test_types.
Proof. solve_decision. Defined.
#[global] Instance test_results_eq_dec : EqDecision test_results.
Proof. solve_decision. Defined.

(** A member of a default-initialised object that has no initialiser. *)
Inductive slot (T : Type) := indeterminate | init (v : T).
Arguments indeterminate {T}.
Arguments init {T} v.

(** [std::source_location]; the default-constructed value has empty names
    and zero line and column. *)
Record source_location := {
  sl_file_name : string;
  sl_function_name : string;
  sl_line : Z;
  sl_column : Z
}.

Definition default_location : source_location :=
  {| sl_file_name := ""; sl_function_name := ""; sl_line := 0; sl_column := 0 |}.

Record test_rc_node := {
  rc_name : string;
  rc_type : string;
  rc_current_location : source_location
}.

Record test_log_node := {
  ms_took : Z;
  result : slot test_results;
  data : string;
  func : slot function_test
}.

Definition set_ms_took (d : Z) (n : test_log_node) : test_log_node :=
  {| ms_took := d; result := result n; data := data n; func := func n |}.

Record test := {
  line : Z;
  column : Z;
  file_name : string;
  function_name : string;
  rc : Z;
  errors : Z;
  infos : list test_log_node;
  rc_infos : list test_rc_node;
  test_func : function_test;
  current_location : source_location;
  main_ms : Z
}.

Definition set_rc (v : Z) (t : test) : test :=
  {| line := line t; column := column t; file_name := file_name t;
     function_name := function_name t; rc := v; errors := errors t;
     infos := infos t; rc_infos := rc_infos t; test_func := test_func t;
     current_location := current_location t; main_ms := main_ms t |}.

Definition set_errors (v : Z) (t : test) : test :=
  {| line := line t; column := column t; file_name := file_name t;
     function_name := function_name t; rc := rc t; errors := v;
     infos := infos t; rc_infos := rc_infos t; test_func := test_func t;
     current_location := current_location t; main_ms := main_ms t |}.

Definition set_infos (v : list test_log_node) (t : test) : test :=
  {| line := line t; column := column t; file_name := file_name t;
     function_name := function_name t; rc := rc t; errors := errors t;
     infos := v; rc_infos := rc_infos t; test_func := test_func t;
     current_location := current_location t; main_ms := main_ms t |}.

Definition set_current_location (v : source_location) (t : test) : test :=
  {| line := line t; column := column t; file_name := file_name t;
     function_name := function_name t; rc := rc t; errors := errors t;
     infos := infos t; rc_infos := rc_infos t; test_func := test_func t;
     current_location := v; main_ms := main_ms t |}.

(** The four members written by [fill_infos]. *)
Definition set_declaration (l : source_location) (t : test) : test :=
  {| line := sl_line l; column := sl_column l; file_name := sl_file_name l;
     function_name := sl_function_name l; rc := rc t; errors := errors t;
     infos := infos t; rc_infos := rc_infos t; test_func := test_func t;
     current_location := current_location t; main_ms := main_ms t |}.

(** ** Output stream, clocks and the world *)

Inductive out_item :=
| OStr (s : string)
| OChar (c : ascii)
| ONum (n : Z).

Definition newline : ascii := ascii_of_nat 10.
Definition nl : string := String newline EmptyString.

Record world := {
  test_reg : test;
  cout : list out_item;
  system_clock : Z;
  high_resolution_clock : Z
}.

Definition set_test_reg (t : test) (w : world) : world :=
  {| test_reg := t; cout := cout w; system_clock := system_clock w;
     high_resolution_clock := high_resolution_clock w |}.

Definition set_cout (o : list out_item) (w : world) : world :=
  {| test_reg := test_reg w; cout := o; system_clock := system_clock w;
     high_resolution_clock := high_resolution_clock w |}.

(** Both clocks advance together while client code computes. *)
Definition elapse (ns : Z) (w : world) : world :=
  {| test_reg := test_reg w; cout := cout w;
     system_clock := system_clock w + ns;
     high_resolution_clock := high_resolution_clock w + ns |}.

(** ** The monad of member functions *)

Inductive outcome (T : Type) :=
| Done (x : T) (w : world)
| Aborted (w : world)
| Undefined.
Arguments Done {T} x w.
Arguments Aborted {T} w.
Arguments Undefined {T}.

Definition M (T : Type) : Type := world -> outcome T.

Definition ret {T} (x : T) : M T := fun w => Done x w.

Definition bind {T U} (m : M T) (k : T -> M U) : M U :=
  fun w =>
    match m w with
    | Done x w' => k x w'
    | Aborted w' => Aborted w'
    | Undefined => Undefined
    end.

Declare Scope gech_scope.
Delimit Scope gech_scope with gech.
Notation "x <- m ;; k" := (bind m (fun x => k))
  (at level 100, m at next level, right associativity) : gech_scope.
Notation "m ;; k" := (bind m (fun _ => k))
  (at level 100, right associativity) : gech_scope.
Local Open Scope gech_scope.

Definition this : M test := fun w => Done (test_reg w) w.

Definition update (f : test -> test) : M unit :=
  fun w => Done tt (set_test_reg (f (test_reg w)) w).

(** [std::cout << a << b << ...] *)
Definition print (items : list out_item) : M unit :=
  fun w => Done tt (set_cout (cout w ++ items) w).

Definition undefined_behaviour {T} : M T := fun _ => Undefined.

(** [std::abort()] *)
Definition abort {T} : M T := fun w => Aborted w.

Definition system_clock_now : M Z := fun w => Done (system_clock w) w.
Definition high_resolution_clock_now : M Z :=
  fun w => Done (high_resolution_clock w) w.

(** Conversion of a [long] nanosecond count to [unsigned]. *)
Definition to_unsigned (z : Z) : Z := z mod 2 ^ 32.

Definition INT_MAX : Z := 2 ^ 31 - 1.
Definition INT_MIN : Z := - 2 ^ 31.

(** ** Operands of an assertion

    [assert] is a template over two operand types that support the six
    relational operators; each operator may be overloaded on its own. *)
Class Comparable (Arg1 Arg2 : Type) := {
  op_eq : Arg1 -> Arg2 -> bool;
  op_ne : Arg1 -> Arg2 -> bool;
  op_gt : Arg1 -> Arg2 -> bool;
  op_lt : Arg1 -> Arg2 -> bool;
  op_ge : Arg1 -> Arg2 -> bool;
  op_le : Arg1 -> Arg2 -> bool
}.

#[global] Instance Z_Comparable : Comparable Z Z := {
  op_eq := Z.eqb;
  op_ne := fun x y => negb (Z.eqb x y);
  op_gt := Z.gtb;
  op_lt := Z.ltb;
  op_ge := Z.geb;
  op_le := Z.leb
}.

(** ** Member functions of [gech::test] *)

(** [since_time]: nanoseconds on the system clock since construction. *)
Definition since_time : M Z :=
  now <- system_clock_now ;;
  t <- this ;;
  ret (now - main_ms t).

Definition summary : M unit :=
  t <- this ;;
  elapsed <- since_time ;;
  print [ OStr (nl ++ "[SUMMARY]" ++ nl)%string;
          OStr "File: ";
          OStr (sl_file_name (current_location t));
          OChar newline;
          OStr "Error/s: ";
          ONum (errors t);
          OChar newline;
          ONum elapsed;
          OStr ("ns" ++ nl)%string ].

Definition test_function (f : function_test) : M unit :=
  let val := {| ms_took := 0; result := indeterminate; data := "";
                func := init f |} in
  update (fun t => set_infos (infos t ++ [val]) t).

Definition fill_infos (location : source_location) : M unit :=
  update (set_declaration location).

Definition put_log (res : test_results) (message : string)
  : M test_log_node :=
  let val := {| ms_took := 0; result := init res; data := message;
                func := indeterminate |} in
  update (fun t => set_infos (infos t ++ [val]) t) ;;
  ret val.

Definition draw_case (node : test_log_node) : M unit :=
  match result node with
  | indeterminate => undefined_behaviour
  | init Critical => print [OStr "[CRITICAL]: "]
  | init Success => print [OStr "[SUCCESS]: "]
  | init Error =>
      print [OStr "[FAILED]: "] ;;
      update (fun t => set_errors ((errors t + 1) mod 2 ^ 32) t)
  end.

(** [put] takes a parameter pack that its body never uses. *)
Definition put {Val : Type} (message : Val) : M unit :=
  t <- this ;;
  match last (infos t) with
  | None => undefined_behaviour
  | Some info =>
      draw_case info ;;
      t <- this ;;
      print [ OStr "(";
              OStr (sl_file_name (current_location t));
              OStr ", ";
              ONum (sl_line (current_location t));
              OStr ":";
              ONum (sl_column (current_location t));
              OStr ":";
              ONum (ms_took info);
              OStr "ns";
              OStr ") [";
              OStr (sl_function_name (current_location t));
              OStr "] -> ";
              OStr (data info);
              OChar newline ]
  end.

(** *** The [switch] of [assert]

    A case block either leaves the switch through [break] or runs off its
    end into the block that follows it. *)
Inductive flow := Break | FallThrough.

Fixpoint run_blocks (blocks : list (test_types * M flow)) : M unit :=
  match blocks with
  | [] => ret tt
  | (_, block) :: rest =>
      f <- block ;;
      match f with
      | Break => ret tt
      | FallThrough => run_blocks rest
      end
  end.

(** Control jumps to the block whose label equals the selector; there is
    no [default] label. *)
Fixpoint switch (type : test_types) (blocks : list (test_types * M flow))
  : M unit :=
  match blocks with
  | [] => ret tt
  | (label, block) :: rest =>
      if decide (type = label) then run_blocks blocks else switch type rest
  end.

Section Assert.
Context {Arg1 Arg2 : Type} `{Comparable Arg1 Arg2}.

Definition case_Eq (val : Arg1) (val2 : Arg2) : M flow :=
  if op_eq val val2 then
    n <- put_log Success "OK" ;; put (data n) ;; ret Break
  else
    n <- put_log Error "Given values are not equal, expected equal" ;;
    put (data n) ;; ret Break.

Definition case_UnEq (val : Arg1) (val2 : Arg2) : M flow :=
  if op_ne val val2 then
    n <- put_log Success "OK" ;; put (data n) ;; ret Break
  else
    n <- put_log Error "Given values are equal, expected not equal" ;;
    put (data n) ;; ret Break.

Definition case_Gt (val : Arg1) (val2 : Arg2) : M flow :=
  if op_gt val val2 then
    n <- put_log Success "OK" ;; put (data n) ;; ret Break
  else
    n <- put_log Error "Given values are not greater, expected greater" ;;
    put (data n) ;; ret Break.

Definition case_Lt (val : Arg1) (val2 : Arg2) : M flow :=
  if op_lt val val2 then
    n <- put_log Success "OK" ;; put (data n) ;; ret Break
  else
    n <- put_log Error "Given values are greater, expected not greater" ;;
    put (data n) ;; ret Break.

Definition case_GEq (val : Arg1) (val2 : Arg2) : M flow :=
  if op_ge val val2 then
    n <- put_log Success "OK" ;; put (data n) ;; ret Break
  else
    n <- put_log Error
           "Given values are not greater or equal, expected greater or equal" ;;
    put (data n) ;; ret Break.

(** The failure path of the last block has no [break]. *)
Definition case_LEq (val : Arg1) (val2 : Arg2) : M flow :=
  if op_le val val2 then
    n <- put_log Success "OK" ;; put (data n) ;; ret Break
  else
    n <- put_log Error
           "Given values are greater or equal, expected not greater or equal" ;;
    put (data n) ;; ret FallThrough.

Definition assert_blocks (val : Arg1) (val2 : Arg2)
  : list (test_types * M flow) :=
  [ (Eq, case_Eq val val2);
    (UnEq, case_UnEq val val2);
    (Gt, case_Gt val val2);
    (Lt, case_Lt val val2);
    (GEq, case_GEq val val2);
    (LEq, case_LEq val val2) ].

Definition assert (type : test_types) (val : Arg1) (val2 : Arg2)
    (location : source_location) : M unit :=
  update (set_current_location location) ;;
  switch type (assert_blocks val val2).

Definition assert_eq (val : Arg1) (val2 : Arg2) (location : source_location)
  : M unit := assert Eq val val2 location.
Definition assert_uneq (val : Arg1) (val2 : Arg2) (location : source_location)
  : M unit := assert UnEq val val2 location.
Definition assert_gt (val : Arg1) (val2 : Arg2) (location : source_location)
  : M unit := assert Gt val val2 location.
Definition assert_lt (val : Arg1) (val2 : Arg2) (location : source_location)
  : M unit := assert Lt val val2 location.
Definition assert_geq (val : Arg1) (val2 : Arg2) (location : source_location)
  : M unit := assert GEq val val2 location.
Definition assert_leq (val : Arg1) (val2 : Arg2) (location : source_location)
  : M unit := assert LEq val val2 location.
End Assert.

(** [assert_rc] hands [location] to [put], which ignores it; the member
    [current_location] is not assigned. *)
Definition assert_rc (location : source_location) : M unit :=
  t <- this ;;
  if rc t <? 0 then
    n <- put_log Critical "(RC < 0) Deallocating not allocated value" ;;
    put (data n, location) ;;
    summary ;;
    abort
  else ret tt.

(** [test(function_test func)]: the default member initialisers, the
    start of the duration clock, and [fill_infos()] whose defaulted
    argument is the location [here] of that call. *)
Definition test_ctor (f : function_test) (here : source_location) (now : Z)
  : test :=
  set_declaration here
    {| line := 0; column := 0; file_name := ""; function_name := "";
       rc := 0; errors := 0; infos := []; rc_infos := [];
       test_func := f; current_location := default_location;
       main_ms := now |}.

(** [~test()] *)
Definition test_dtor (location : source_location) : M unit :=
  assert_rc location ;;
  summary.

(** [++test_reg.rc] and [--test_reg.rc] on an [int]. *)
Definition incr_rc : M unit :=
  t <- this ;;
  if decide (rc t = INT_MAX) then undefined_behaviour
  else update (set_rc (rc t + 1)).

Definition decr_rc : M unit :=
  t <- this ;;
  if decide (rc t = INT_MIN) then undefined_behaviour
  else update (set_rc (rc t - 1)).

(** The counter half of the macros [ALLOC(name, type)] and
    [DEALLOC(name)]; the [new] and [delete] they also expand to touch
    nothing of [test_reg]. *)
Definition ALLOC (location : source_location) : M unit :=
  assert_rc location ;;
  incr_rc.

Definition DEALLOC (location : source_location) : M unit :=
  decr_rc ;;
  assert_rc location.

(** ** Client code

    The body of a test case and the functions handed to [test_function]
    are client code.  It is represented by the sequence of uses it makes
    of the header, interleaved with computation of its own that only
    takes time. *)
(** [Assert Eq v v2 l] is [ASSERT_EQ(v, v2)] written at [l], that is
    [test_reg.assert_eq(v, v2)], and likewise for the other five macros;
    [Assert MemLeak] is a direct call of [assert]. *)
Inductive statement {Arg1 Arg2 : Type} :=
| Assert (type : test_types) (val : Arg1) (val2 : Arg2)
         (location : source_location)
| Alloc (location : source_location)
| Dealloc (location : source_location)
| TestFunction (f : function_test)
| Work (ns : Z).
Arguments statement : clear implicits.

Section Client.
Context {Arg1 Arg2 : Type} `{Comparable Arg1 Arg2}.

Definition ASSERT_EQ (val : Arg1) (val2 : Arg2) (l : source_location)
  : statement Arg1 Arg2 := Assert Eq val val2 l.
Definition ASSERT_UNEQ (val : Arg1) (val2 : Arg2) (l : source_location)
  : statement Arg1 Arg2 := Assert UnEq val val2 l.
Definition ASSERT_GT (val : Arg1) (val2 : Arg2) (l : source_location)
  : statement Arg1 Arg2 := Assert Gt val val2 l.
Definition ASSERT_LT (val : Arg1) (val2 : Arg2) (l : source_location)
  : statement Arg1 Arg2 := Assert Lt val val2 l.
Definition ASSERT_GEQ (val : Arg1) (val2 : Arg2) (l : source_location)
  : statement Arg1 Arg2 := Assert GEq val val2 l.
Definition ASSERT_LEQ (val : Arg1) (val2 : Arg2) (l : source_location)
  : statement Arg1 Arg2 := Assert LEq val val2 l.

Definition exec_statement (s : statement Arg1 Arg2) : M unit :=
  match s with
  | Assert type val val2 location => assert type val val2 location
  | Alloc location => ALLOC location
  | Dealloc location => DEALLOC location
  | TestFunction f => test_function f
  | Work ns => fun w => Done tt (elapse ns w)
  end.

Fixpoint exec (body : list (statement Arg1 Arg2)) : M unit :=
  match body with
  | [] => ret tt
  | s :: rest => exec_statement s ;; exec rest
  end.

(** The text of the client's functions, by identifier. *)
Variable code : nat -> list (statement Arg1 Arg2).

(** [func()] through a function pointer. *)
Definition call (f : function_test) : M unit :=
  match f with
  | nullptr => undefined_behaviour
  | fn id => exec (code id)
  end.

Definition calculate_time (f : function_test) : M Z :=
  ms <- high_resolution_clock_now ;;
  call f ;;
  now <- high_resolution_clock_now ;;
  ret (to_unsigned (now - ms)).

(** One iteration of [for(auto& test : this->infos)] at position [i];
    [size] is the length of the ledger when the loop was entered.  The
    header only ever appends to the ledger, so its length differs from
    [size] exactly when the called function pushed an entry, which
    invalidates the loop's end iterator. *)
Definition run_tests_step (size : nat) (i : nat) : M unit :=
  t <- this ;;
  match infos t !! i with
  | None => undefined_behaviour
  | Some test =>
      match func test with
      | indeterminate => undefined_behaviour
      | init nullptr => ret tt
      | init f =>
          d <- calculate_time f ;;
          t' <- this ;;
          if decide (length (infos t') = size) then
            update (set_infos (alter (set_ms_took d) i (infos t')))
          else undefined_behaviour
      end
  end.

Fixpoint for_range (body : nat -> M unit) (i count : nat) : M unit :=
  match count with
  | O => ret tt
  | S count' => body i ;; for_range body (S i) count'
  end.

(** In [infos.back().ms_took = calculate_time(func)] the right operand
    is evaluated first, so [back()] is taken of the ledger as the body
    left it. *)
Definition run_tests : M unit :=
  t <- this ;;
  d <- calculate_time (test_func t) ;;
  t <- this ;;
  match infos t with
  | [] => undefined_behaviour
  | _ :: _ =>
      update (set_infos
                (alter (set_ms_took d) (Nat.pred (length (infos t)))
                   (infos t))) ;;
      for_range (run_tests_step (length (infos t))) 0 (length (infos t))
  end.

(** [TEST_MAIN]: [main] runs [run_tests] and returns, after which the
    global [test_reg] is destroyed. *)
Definition TEST_MAIN (location : source_location) : M unit :=
  run_tests ;;
  test_dtor location.
End Client.

(** The world in which [main] starts: [test_reg] has been constructed and
    nothing has been printed. *)
Definition initial_world (f : function_test) (here : source_location)
    (sys hr : Z) : world :=
  {| test_reg := test_ctor f here sys; cout := [];
     system_clock := sys; high_resolution_clock := hr |}.

(** ** What an assertion is meant to evaluate

    The table of predicates and failure messages, one row per comparison
    kind that the assertion engine evaluates; [MemLeak] has no row. *)
Section Table.
Context {Arg1 Arg2 : Type} `{Comparable Arg1 Arg2}.

Definition predicate (type : test_types) (val : Arg1) (val2 : Arg2)
  : option bool :=
  match type with
  | Eq => Some (op_eq val val2)
  | UnEq => Some (op_ne val val2)
  | Gt => Some (op_gt val val2)
  | Lt => Some (op_lt val val2)
  | GEq => Some (op_ge val val2)
  | LEq => Some (op_le val val2)
  | MemLeak => None
  end.
End Table.

Definition failure_message (type : test_types) : string :=
  match type with
  | Eq => "Given values are not equal, expected equal"
  | UnEq => "Given values are equal, expected not equal"
  | Gt => "Given values are not greater, expected greater"
  | Lt => "Given values are greater, expected not greater"
  | GEq => "Given values are not greater or equal, expected greater or equal"
  | LEq => "Given values are greater or equal, expected not greater or equal"
  | MemLeak => ""
  end.

Definition evaluated (type : test_types) : bool :=
  match type with MemLeak => false | _ => true end.

(** The entry that [put_log] builds. *)
Definition log_entry (res : test_results) (message : string) : test_log_node :=
  {| ms_took := 0; result := init res; data := message;
     func := indeterminate |}.

Definition outcome_entry (holds : bool) (type : test_types) : test_log_node :=
  if holds then log_entry Success "OK"
  else log_entry Error (failure_message type).

(** ** Symbolic execution of recording and drawing one outcome *)

Definition status_tag (res : test_results) : string :=
  match res with
  | Critical => "[CRITICAL]: "
  | Success => "[SUCCESS]: "
  | Error => "[FAILED]: "
  end.

Definition report_line (l : source_location) (res : test_results)
    (message : string) : list out_item :=
  [ OStr (status_tag res); OStr "("; OStr (sl_file_name l); OStr ", ";
    ONum (sl_line l); OStr ":"; ONum (sl_column l); OStr ":"; ONum 0;
    OStr "ns"; OStr ") ["; OStr (sl_function_name l); OStr "] -> ";
    OStr message; OChar newline ].

Definition tally_after (res : test_results) (n : Z) : Z :=
  match res with
  | Error => (n + 1) mod 2 ^ 32
  | _ => n
  end.

(** The world after [put(put_log(res, message).data)]. *)
Definition recorded (res : test_results) (message : string) (w : world)
  : world :=
  let t := test_reg w in
  set_cout (cout w ++ report_line (current_location t) res message)
    (set_test_reg
       (set_errors (tally_after res (errors t))
          (set_infos (infos t ++ [log_entry res message]) t)) w).

(** The world after [assert]: the call site is stored, then the outcome
    of the selected predicate, if the kind has one, is recorded. *)
Definition located (location : source_location) (w : world) : world :=
  set_test_reg (set_current_location location (test_reg w)) w.

Definition asserted (holds : option bool) (type : test_types)
    (location : source_location) (w : world) : world :=
  match holds with
  | Some true => recorded Success "OK" (located location w)
  | Some false => recorded Error (failure_message type) (located location w)
  | None => located location w
  end.


(** The block that [summary] prints. *)
Definition summary_block (t : test) (elapsed : Z) : list out_item :=
  [ OStr (nl ++ "[SUMMARY]" ++ nl)%string; OStr "File: ";
    OStr (sl_file_name (current_location t)); OChar newline;
    OStr "Error/s: "; ONum (errors t); OChar newline;
    ONum elapsed; OStr ("ns" ++ nl)%string ].

Definition summarised (w : world) : world :=
  set_cout
    (cout w ++ summary_block (test_reg w)
                 (system_clock w - main_ms (test_reg w))) w.

Definition rc_message : string := "(RC < 0) Deallocating not allocated value".

(** The world in which the process is aborted by the counter guard. *)
Definition rc_violation (w : world) : world :=
  summarised (recorded Critical rc_message w).

Definition with_rc (v : Z) (w : world) : world :=
  set_test_reg (set_rc v (test_reg w)) w.

Definition with_infos (l : list test_log_node) (w : world) : world :=
  set_test_reg (set_infos l (test_reg w)) w.

(** Overwriting the four members that [fill_infos] writes. *)
Definition redeclare (l : source_location) (w : world) : world :=
  set_test_reg (set_declaration l (test_reg w)) w.

Definition map_outcome {T} (f : world -> world) (o : outcome T) : outcome T :=
  match o with
  | Done x w => Done x (f w)
  | Aborted w => Aborted (f w)
  | Undefined => Undefined
  end.

(** An execution that has ended, normally or through [std::abort]. *)
Definition ends_in {T} (o : outcome T) (w' : world) : Prop :=
  (exists x, o = Done x w') \/ o = Aborted w'.

(** ** Measures on the ledger and on client code *)

Definition is_error (n : test_log_node) : bool :=
  match result n with init Error => true | _ => false end.

Definition is_error_or_critical (n : test_log_node) : bool :=
  match result n with
  | init Error | init Critical => true
  | _ => false
  end.

Fixpoint count_entries (p : test_log_node -> bool) (l : list test_log_node)
  : Z :=
  match l with
  | [] => 0
  | n :: rest => (if p n then 1 else 0) + count_entries p rest
  end.

(** The tally agrees with the ledger, up to the width of [unsigned]. *)
Definition tally_counts (p : test_log_node -> bool) (w : world) : Prop :=
  errors (test_reg w) = count_entries p (infos (test_reg w)) mod 2 ^ 32.

Section Measures.
Context {Arg1 Arg2 : Type}.

(** Time that a piece of client code spends computing. *)
Fixpoint work (body : list (statement Arg1 Arg2)) : Z :=
  match body with
  | [] => 0
  | Work ns :: rest => ns + work rest
  | _ :: rest => work rest
  end.

(** Call site of the last assertion in a piece of client code. *)
Fixpoint last_assert_location (body : list (statement Arg1 Arg2))
  : option source_location :=
  match body with
  | [] => None
  | s :: rest =>
      match last_assert_location rest, s with
      | Some l, _ => Some l
      | None, Assert _ _ _ l => Some l
      | None, _ => None
      end
  end.

Definition is_assert (s : statement Arg1 Arg2) : bool :=
  match s with Assert _ _ _ _ => true | _ => false end.

Variable code : nat -> list (statement Arg1 Arg2).

(** The functions registered in a ledger, in ledger order. *)
Fixpoint registered (l : list test_log_node) : list nat :=
  match l with
  | [] => []
  | n :: rest =>
      match func n with
      | init (fn id) => id :: registered rest
      | _ => registered rest
      end
  end.

(** The duration that the runner measures for an entry's function. *)
Definition backfill (n : test_log_node) : test_log_node :=
  match func n with
  | init (fn id) => set_ms_took (to_unsigned (work (code id))) n
  | _ => n
  end.
End Measures.

(** ** The release macro with the guard in front

    [DEALLOC] as it would read if the guard ran before the counter is
    decremented, the order that [ALLOC] has. *)
Definition DEALLOC_guard_first (location : source_location) : M unit :=
  assert_rc location ;;
  decr_rc.

(** An operation behaves as if a guard check ran before it. *)
Definition guard_precedes (op : source_location -> M unit) : Prop :=
  forall location w, (assert_rc location ;; op location) w = op location w.

(** The entry that [test_function] builds. *)
Definition function_entry (f : function_test) : test_log_node :=
  {| ms_took := 0; result := indeterminate; data := ""; func := init f |}.

(** Closed forms of the two counter macros. *)
Definition ALLOC_outcome (w : world) : outcome unit :=
  let n := rc (test_reg w) in
  if n <? 0 then Aborted (rc_violation w)
  else if decide (n = INT_MAX) then Undefined
  else Done tt (with_rc (n + 1) w).

Definition DEALLOC_outcome (w : world) : outcome unit :=
  let n := rc (test_reg w) in
  if decide (n = INT_MIN) then Undefined
  else if n - 1 <? 0 then Aborted (rc_violation (with_rc (n - 1) w))
  else Done tt (with_rc (n - 1) w).

(** ** Concrete worlds used in examples *)

Definition fresh_world : world := initial_world nullptr default_location 0 0.

(** A counter that client code has driven below zero by writing the
    public member directly. *)
Definition negative_world : world := with_rc (-1) fresh_world.

(** A computation whose effect does not depend on the four members that
    [fill_infos] writes: overwriting them beforehand or afterwards gives
    the same outcome, output included. *)
Definition ignores_declaration {T} (m : M T) : Prop :=
  forall l w, m (redeclare l w) = map_outcome (redeclare l) (m w).

(** A small client: case [math] makes two assertions; case [timed]
    registers two functions that take 10 and 32 ns and balance one
    acquire with one release; case [idle] has an empty body. *)
Definition math_site : source_location :=
  {| sl_file_name := "math.cpp"; sl_function_name := "void math()";
     sl_line := 4; sl_column := 5 |}.

Definition ctor_site : source_location :=
  {| sl_file_name := "gechtest.hpp";
     sl_function_name := "gech::test::test(gech::function_test)";
     sl_line := 95; sl_column := 29 |}.

Definition math : nat := 0%nat.
Definition timed : nat := 1%nat.
Definition first_sub : nat := 2%nat.
Definition second_sub : nat := 3%nat.
Definition idle : nat := 4%nat.

Definition demo_code (id : nat) : list (statement Z Z) :=
  match id with
  | 0%nat => [ASSERT_EQ (2 + 2) 4 math_site; ASSERT_GT 1 5 math_site]
  | 1%nat =>
      [Work 5; TestFunction (fn first_sub); TestFunction (fn second_sub)]
  | 2%nat => [Work 10; Alloc math_site]
  | 3%nat => [Work 32; Dealloc math_site]
  | _ => []
  end.

Definition demo_world (case : nat) : world :=
  initial_world (fn case) ctor_site 100 7.

(** ** What a piece of client code that returns has recorded

    Read off the statements in order: the entries it appends, the lines
    it prints, the assertions that fail and the net number of
    acquisitions. *)
Section Accounting.
Context {Arg1 Arg2 : Type} `{Comparable Arg1 Arg2}.

Fixpoint expected_entries (body : list (statement Arg1 Arg2))
  : list test_log_node :=
  match body with
  | [] => []
  | Assert type val val2 _ :: rest =>
      match predicate type val val2 with
      | Some holds => outcome_entry holds type :: expected_entries rest
      | None => expected_entries rest
      end
  | TestFunction f :: rest => function_entry f :: expected_entries rest
  | _ :: rest => expected_entries rest
  end.

Fixpoint expected_output (body : list (statement Arg1 Arg2))
  : list out_item :=
  match body with
  | [] => []
  | Assert type val val2 location :: rest =>
      match predicate type val val2 with
      | Some true => report_line location Success "OK" ++ expected_output rest
      | Some false =>
          report_line location Error (failure_message type)
            ++ expected_output rest
      | None => expected_output rest
      end
  | _ :: rest => expected_output rest
  end.

Fixpoint failures (body : list (statement Arg1 Arg2)) : Z :=
  match body with
  | [] => 0
  | Assert type val val2 _ :: rest =>
      match predicate type val val2 with
      | Some false => 1 + failures rest
      | _ => failures rest
      end
  | _ :: rest => failures rest
  end.

Fixpoint net_acquired (body : list (statement Arg1 Arg2)) : Z :=
  match body with
  | [] => 0
  | Alloc _ :: rest => 1 + net_acquired rest
  | Dealloc _ :: rest => net_acquired rest - 1
  | _ :: rest => net_acquired rest
  end.
End Accounting.

(** ** Predicates on worlds *)

Definition no_critical (l : list test_log_node) : Prop :=
  Forall (fun e => result e <> init Critical) l.

(** The values of the integer members fit their C++ types. *)
Definition in_range (w : world) : Prop :=
  0 <= errors (test_reg w) < 2 ^ 32 /\
  INT_MIN <= rc (test_reg w) <= INT_MAX /\
  Forall (fun e => 0 <= ms_took e < 2 ^ 32) (infos (test_reg w)).

(** Members that only the constructor writes. *)
Definition same_fixed_members (w w' : world) : Prop :=
  main_ms (test_reg w') = main_ms (test_reg w) /\
  test_func (test_reg w') = test_func (test_reg w) /\
  rc_infos (test_reg w') = rc_infos (test_reg w) /\
  line (test_reg w') = line (test_reg w) /\
  column (test_reg w') = column (test_reg w) /\
  file_name (test_reg w') = file_name (test_reg w) /\
  function_name (test_reg w') = function_name (test_reg w).

(** A ledger entry without its duration. *)
Definition erase_duration (e : test_log_node) : test_log_node :=
  set_ms_took 0 e.

(** The result kind of the entry that was appended last. *)
Definition last_result (w : world) : option test_results :=
  match last (infos (test_reg w)) with
  | Some e => match result e with init r => Some r | indeterminate => None end
  | None => None
  end.

(** The worlds in which case [math] returns from its body and case
    [timed] returns from [TEST_MAIN]. *)
Definition math_done : world :=
  asserted (Some false) Gt math_site
    (asserted (Some true) Eq math_site (demo_world math)).

Definition timed_done : world :=
  summarised
    (with_infos
       [ set_ms_took 10 (function_entry (fn first_sub));
         set_ms_took 32 (function_entry (fn second_sub)) ]
       (elapse 47 (demo_world timed))).


(** * Properties

    ** Monad and symbolic-execution lemmas *)

Lemma put_log_put {Val : Type} (extra : string -> Val) res message w :
  (n <- put_log res message ;; put (extra (data n))) w
  = Done tt (recorded res message w).
Proof.
  unfold bind, put_log, put, bind, update, ret, this. simpl.
  rewrite last_snoc. unfold draw_case, log_entry. simpl.
  destruct w as [t o s h], res;
    unfold bind, print, update, recorded; simpl;
    rewrite <- ?List.app_assoc; reflexivity.
Qed.

Lemma bind_then_ret {T U V} (m : M T) (k : T -> M U) (x : V) u w w' :
  (n <- m ;; k n) w = Done u w' ->
  (n <- m ;; k n ;; ret x) w = Done x w'.
Proof.
  unfold bind, ret. destruct (m w) as [n w1| |]; try discriminate.
  destruct (k n w1); intros E; inversion E; reflexivity.
Qed.

Lemma bind_done {T U} (m : M T) (k : T -> M U) w x w1 :
  m w = Done x w1 -> bind m k w = k x w1.
Proof. unfold bind. intros ->. reflexivity. Qed.

Lemma bind_aborted {T U} (m : M T) (k : T -> M U) w w1 :
  m w = Aborted w1 -> bind m k w = Aborted w1.
Proof. unfold bind. intros ->. reflexivity. Qed.

Lemma bind_undefined {T U} (m : M T) (k : T -> M U) w :
  m w = Undefined -> bind m k w = Undefined.
Proof. unfold bind. intros ->. reflexivity. Qed.

Lemma bind_this {T} (k : test -> M T) w :
  (t <- this ;; k t) w = k (test_reg w) w.
Proof. reflexivity. Qed.

Lemma block_ends (f : flow) res message w :
  (n <- put_log res message ;; put (data n) ;; ret f) w
  = Done f (recorded res message w).
Proof.
  apply bind_then_ret with (u := tt).
  apply (put_log_put (fun s => s)).
Qed.

Section AssertFacts.
Context {Arg1 Arg2 : Type} `{Comparable Arg1 Arg2}.

Lemma assert_run type (val : Arg1) (val2 : Arg2) location w :
  assert type val val2 location w
  = Done tt (asserted (predicate type val val2) type location w).
Proof.
  unfold assert. unfold bind at 1. unfold update.
  change (set_test_reg _ w) with (located location w).
  destruct type; simpl; [.. | reflexivity]; unfold bind at 1;
    unfold case_Eq, case_UnEq, case_Gt, case_Lt, case_GEq, case_LEq.
  - destruct (op_eq val val2); rewrite block_ends; reflexivity.
  - destruct (op_ne val val2); rewrite block_ends; reflexivity.
  - destruct (op_gt val val2); rewrite block_ends; reflexivity.
  - destruct (op_lt val val2); rewrite block_ends; reflexivity.
  - destruct (op_ge val val2); rewrite block_ends; reflexivity.
  - destruct (op_le val val2); rewrite block_ends; reflexivity.
Qed.
End AssertFacts.

Lemma summary_run w : summary w = Done tt (summarised w).
Proof. reflexivity. Qed.

Lemma assert_rc_passes location w :
  0 <= rc (test_reg w) -> assert_rc location w = Done tt w.
Proof.
  intros Hrc. unfold assert_rc. unfold bind at 1. unfold this.
  destruct (Z.ltb_spec (rc (test_reg w)) 0) as [Hneg|_]; [lia|reflexivity].
Qed.

Lemma assert_rc_fires location w :
  rc (test_reg w) < 0 -> assert_rc location w = Aborted (rc_violation w).
Proof.
  intros Hrc. unfold assert_rc. unfold bind at 1. unfold this.
  destruct (Z.ltb_spec (rc (test_reg w)) 0) as [_|Hpos]; [|lia].
  pose proof (put_log_put (fun s => (s, location)) Critical rc_message w) as E.
  unfold bind in *. fold rc_message.
  destruct (put_log Critical rc_message w) as [n w1| |]; try discriminate.
  simpl in E. rewrite E. reflexivity.
Qed.

Lemma assert_rc_cases location w :
  assert_rc location w
  = if rc (test_reg w) <? 0 then Aborted (rc_violation w) else Done tt w.
Proof.
  destruct (Z.ltb_spec (rc (test_reg w)) 0).
  - now apply assert_rc_fires.
  - now apply assert_rc_passes.
Qed.

(** ** Claims about a single assertion *)

Section AssertClaims.
Context {Arg1 Arg2 : Type} `{Comparable Arg1 Arg2}.

Lemma evaluated_predicate type (val : Arg1) (val2 : Arg2) :
  evaluated type = true -> exists holds, predicate type val val2 = Some holds.
Proof. destruct type; simpl; intros E; try discriminate; eauto. Qed.

Lemma asserted_ledger holds type location w :
  infos (test_reg (asserted (Some holds) type location w))
  = infos (test_reg w) ++ [outcome_entry holds type].
Proof. destruct holds; reflexivity. Qed.

(** C1.  For each of the six evaluated comparison kinds, [assert]
    evaluates that kind's predicate on its operands and appends one
    entry to the ledger: [Success] with message "OK" when the predicate
    holds, [Error] with the message of that kind when it fails; the
    failure messages of distinct kinds are distinct. *)
Theorem assert_evaluates_predicate type (val : Arg1) (val2 : Arg2)
    location w holds :
  predicate type val val2 = Some holds ->
  (exists w',
      assert type val val2 location w = Done tt w' /\
      infos (test_reg w')
      = infos (test_reg w)
          ++ [ {| ms_took := 0;
                  result := init (if holds then Success else Error);
                  data := if holds then "OK" else failure_message type;
                  func := indeterminate |} ]) /\
  failure_message Eq = "Given values are not equal, expected equal" /\
  (forall type', evaluated type' = true ->
                 failure_message type' = failure_message type ->
                 type' = type).
Proof.
  intros Hp. split; [|split].
  - eexists. split; [apply assert_run|].
    rewrite Hp, asserted_ledger. destruct holds; reflexivity.
  - reflexivity.
  - intros type' Hev Hmsg.
    destruct type; try discriminate Hp;
      destruct type'; try discriminate Hev; try reflexivity;
      discriminate Hmsg.
Qed.

Lemma switch_selects type block (val : Arg1) (val2 : Arg2) w :
  (type, block) ∈ assert_blocks val val2 ->
  switch type (assert_blocks val val2) w = (block ;; ret tt) w.
Proof.
  unfold assert_blocks. intros Hin.
  repeat (apply elem_of_cons in Hin; destruct Hin as [Hin|Hin];
          [inversion Hin; subst; clear Hin|]);
    [.. | now apply elem_of_nil in Hin];
    simpl;
    unfold case_Eq, case_UnEq, case_Gt, case_Lt, case_GEq, case_LEq;
    match goal with
    | |- context [if ?c then _ else _] => destruct c
    end;
    erewrite (bind_done _ _ w) by apply block_ends;
    erewrite (bind_done _ _ w) by apply block_ends;
    reflexivity.
Qed.

(** C6.  A call of [assert] with one of the six evaluated kinds appends
    exactly one entry to the ledger, and the switch executes the block
    of the selected kind and nothing else: its effect is that of this
    block alone, for the last kind [LEq] as for the others. *)
Theorem assert_appends_one_entry type (val : Arg1) (val2 : Arg2)
    location w :
  evaluated type = true ->
  (exists entry w',
      assert type val val2 location w = Done tt w' /\
      infos (test_reg w') = infos (test_reg w) ++ [entry]) /\
  (forall block w0,
      (type, block) ∈ assert_blocks val val2 ->
      switch type (assert_blocks val val2) w0 = (block ;; ret tt) w0) /\
  (exists block, (type, block) ∈ assert_blocks val val2).
Proof.
  intros Hev. split; [|split].
  - destruct (evaluated_predicate type val val2 Hev) as [holds Hp].
    exists (outcome_entry holds type). eexists.
    split; [apply assert_run|]. rewrite Hp. apply asserted_ledger.
  - intros block w0 Hin. now apply switch_selects.
  - unfold assert_blocks.
    destruct type; try discriminate Hev; eexists;
      repeat first [apply list_elem_of_here | apply list_elem_of_further].
Qed.

(** C8.  Issuing the same assertion twice on unchanged operands appends
    two entries with the same result kind and the same message; each
    has a duration field of its own, so writing a duration into the
    second leaves the first as it was. *)
Theorem assert_twice_same_entries type (val : Arg1) (val2 : Arg2)
    location w :
  evaluated type = true ->
  exists e1 e2 w',
    (assert type val val2 location ;; assert type val val2 location) w
    = Done tt w' /\
    infos (test_reg w') = infos (test_reg w) ++ [e1; e2] /\
    result e1 = result e2 /\
    data e1 = data e2 /\
    ms_took e1 = 0 /\ ms_took e2 = 0 /\
    forall d,
      alter (set_ms_took d) (Nat.pred (length (infos (test_reg w'))))
        (infos (test_reg w'))
      = infos (test_reg w) ++ [e1; set_ms_took d e2].
Proof.
  intros Hev.
  destruct (evaluated_predicate type val val2 Hev) as [holds Hp].
  exists (outcome_entry holds type), (outcome_entry holds type).
  eexists. split.
  { unfold bind. rewrite assert_run, assert_run. reflexivity. }
  rewrite Hp.
  assert (infos (test_reg (asserted (Some holds) type location
                             (asserted (Some holds) type location w)))
          = infos (test_reg w)
              ++ [outcome_entry holds type; outcome_entry holds type]) as E.
  { rewrite !asserted_ledger, <- List.app_assoc. reflexivity. }
  rewrite E. repeat split; try (destruct holds; reflexivity).
  intros d. rewrite length_app. simpl.
  replace (Nat.pred (length (infos (test_reg w)) + 2))
    with (length (infos (test_reg w)) + 1)%nat by lia.
  rewrite alter_app_r. reflexivity.
Qed.
End AssertClaims.

(** C10.  With a non-negative resource counter the guard check does
    nothing at all: it returns normally in the very world it was called
    in, so the ledger, the output, the counter, the tally and every other
    member are as they were. *)
Theorem assert_rc_noop location w :
  0 <= rc (test_reg w) ->
  assert_rc location w = Done tt w.
Proof. apply assert_rc_passes. Qed.

(** ** Closed forms of the macros and of client statements *)

Lemma ALLOC_run location w : ALLOC location w = ALLOC_outcome w.
Proof.
  unfold ALLOC, ALLOC_outcome, bind. rewrite assert_rc_cases.
  destruct (rc (test_reg w) <? 0); [reflexivity|].
  unfold incr_rc, bind, this.
  destruct (decide (rc (test_reg w) = INT_MAX)); reflexivity.
Qed.

Lemma DEALLOC_run location w : DEALLOC location w = DEALLOC_outcome w.
Proof.
  unfold DEALLOC, DEALLOC_outcome, bind, decr_rc, bind, this.
  destruct (decide (rc (test_reg w) = INT_MIN)); [reflexivity|].
  unfold update. rewrite assert_rc_cases. reflexivity.
Qed.

Lemma test_function_run f w :
  test_function f w
  = Done tt (with_infos (infos (test_reg w) ++ [function_entry f]) w).
Proof. reflexivity. Qed.

Section ExecFacts.
Context {Arg1 Arg2 : Type} `{Comparable Arg1 Arg2}.
Implicit Types (body rest : list (statement Arg1 Arg2)).
Implicit Types (s : statement Arg1 Arg2).

Lemma exec_cons_done s rest w w' :
  exec (s :: rest) w = Done tt w' <->
  exists w1, exec_statement s w = Done tt w1 /\ exec rest w1 = Done tt w'.
Proof.
  simpl. unfold bind. split.
  - destruct (exec_statement s w) as [[] w1| |]; try discriminate. eauto.
  - intros (w1 & -> & E). exact E.
Qed.

Lemma exec_cons_aborted s rest w w' :
  exec (s :: rest) w = Aborted w' <->
  exec_statement s w = Aborted w' \/
  exists w1, exec_statement s w = Done tt w1 /\ exec rest w1 = Aborted w'.
Proof.
  simpl. unfold bind. split.
  - destruct (exec_statement s w) as [[] w1| |]; try discriminate; eauto.
  - intros [->|(w1 & -> & E)]; [reflexivity|exact E].
Qed.

Lemma exec_app body rest w :
  exec (body ++ rest) w = (exec body ;; exec rest) w.
Proof.
  revert w. induction body as [|s body IH]; intros w; [reflexivity|].
  simpl. unfold bind. destruct (exec_statement s w) as [[] w1| |];
    [apply IH|reflexivity..].
Qed.

(** A relation between the worlds before and after each statement
    extends to whole bodies. *)
Lemma exec_ends_ind (R : world -> world -> Prop) :
  (forall w, R w w) ->
  (forall w1 w2 w3, R w1 w2 -> R w2 w3 -> R w1 w3) ->
  (forall s w w', ends_in (exec_statement s w) w' -> R w w') ->
  forall body w w', ends_in (exec body w) w' -> R w w'.
Proof.
  intros Hrefl Htrans Hstep. induction body as [|s body IH]; intros w w' E.
  - destruct E as [[x E]|E]; inversion E; subst. apply Hrefl.
  - destruct E as [[[] E]|E].
    + apply exec_cons_done in E as (w1 & E1 & E2).
      apply Htrans with w1; [apply (Hstep s)|apply IH]; left; eauto.
    + apply exec_cons_aborted in E as [E|(w1 & E1 & E2)].
      * apply (Hstep s). now right.
      * apply Htrans with w1;
          [apply (Hstep s); left; eauto|apply IH; now right].
Qed.

Lemma exec_statement_aborted s w w' :
  exec_statement s w = Aborted w' ->
  exists w0, rc (test_reg w0) < 0 /\ w' = rc_violation w0.
Proof.
  destruct s as [type val val2 l|l|l|f|ns]; simpl.
  - rewrite assert_run. discriminate.
  - rewrite ALLOC_run. unfold ALLOC_outcome.
    destruct (Z.ltb_spec (rc (test_reg w)) 0) as [Hneg|_].
    + intros E. inversion E. eauto.
    + destruct (decide _); discriminate.
  - rewrite DEALLOC_run. unfold DEALLOC_outcome.
    destruct (decide _); [discriminate|].
    destruct (Z.ltb_spec (rc (test_reg w) - 1) 0) as [Hneg|_];
      [|discriminate].
    intros E. inversion E. eexists. split; [|reflexivity]. exact Hneg.
  - discriminate.
  - discriminate.
Qed.

Lemma exec_aborted body w w' :
  exec body w = Aborted w' ->
  exists w0, rc (test_reg w0) < 0 /\ w' = rc_violation w0.
Proof.
  revert w. induction body as [|s body IH]; intros w E; [discriminate|].
  apply exec_cons_aborted in E as [E|(w1 & _ & E)].
  - now apply exec_statement_aborted in E.
  - now apply IH in E.
Qed.
End ExecFacts.

(** ** Decomposition of sequenced computations *)

Lemma bind_ends {T U} (m : M T) (k : T -> M U) w w' :
  ends_in (bind m k w) w' ->
  m w = Aborted w' \/ exists x w1, m w = Done x w1 /\ ends_in (k x w1) w'.
Proof.
  unfold ends_in, bind. destruct (m w) as [x w1| |].
  - intros E. right. eauto.
  - intros [[x E]|E]; [discriminate|]. left. congruence.
  - intros [[x E]|E]; discriminate.
Qed.

Lemma bind_is_done {T U} (m : M T) (k : T -> M U) w y w' :
  bind m k w = Done y w' ->
  exists x w1, m w = Done x w1 /\ k x w1 = Done y w'.
Proof.
  unfold bind. destruct (m w) as [x w1| |]; try discriminate. eauto.
Qed.

Lemma bind_is_aborted {T U} (m : M T) (k : T -> M U) w w' :
  bind m k w = Aborted w' ->
  m w = Aborted w' \/ exists x w1, m w = Done x w1 /\ k x w1 = Aborted w'.
Proof.
  unfold bind. destruct (m w) as [x w1| |]; try discriminate; eauto.
  intros E. left. congruence.
Qed.

Lemma for_range_ends_ind (R : world -> world -> Prop)
    (body : nat -> M unit) :
  (forall w, R w w) ->
  (forall w1 w2 w3, R w1 w2 -> R w2 w3 -> R w1 w3) ->
  (forall i w w', ends_in (body i w) w' -> R w w') ->
  forall count i w w', ends_in (for_range body i count w) w' -> R w w'.
Proof.
  intros Hrefl Htrans Hstep. induction count as [|count IH]; intros i w w' E.
  - destruct E as [[x E]|E]; inversion E; subst. apply Hrefl.
  - simpl in E. apply bind_ends in E as [E|(x & w1 & E1 & E2)].
    + apply (Hstep i). now right.
    + apply Htrans with w1; [apply (Hstep i); left; eauto|].
      now apply IH in E2.
Qed.

Section RunnerFacts.
Context {Arg1 Arg2 : Type} `{Comparable Arg1 Arg2}.
Variable code : nat -> list (statement Arg1 Arg2).

Lemma calculate_time_run f w :
  calculate_time code f w
  = match call code f w with
    | Done _ w1 =>
        Done (to_unsigned (high_resolution_clock w1
                           - high_resolution_clock w)) w1
    | Aborted w1 => Aborted w1
    | Undefined => Undefined
    end.
Proof.
  unfold calculate_time, bind, high_resolution_clock_now, ret.
  destruct (call code f w); reflexivity.
Qed.

(** The runner changes the world only by running client code and by
    writing durations into ledger entries. *)
Lemma run_tests_ends_ind (R : world -> world -> Prop) :
  (forall w, R w w) ->
  (forall w1 w2 w3, R w1 w2 -> R w2 w3 -> R w1 w3) ->
  (forall (s : statement Arg1 Arg2) w w',
      ends_in (exec_statement s w) w' -> R w w') ->
  (forall d i w,
      R w (with_infos (alter (set_ms_took d) i (infos (test_reg w))) w)) ->
  forall w w', ends_in (run_tests code w) w' -> R w w'.
Proof.
  intros Hrefl Htrans Hstmt Hfill.
  assert (Hexec : forall body w w', ends_in (exec body w) w' -> R w w')
    by now apply exec_ends_ind.
  assert (Hcall : forall f w w', ends_in (call code f w) w' -> R w w').
  { intros [|id] w w' E; simpl in E; [|now apply Hexec in E].
    destruct E as [[x E]|E]; discriminate. }
  assert (Htime : forall f w w',
             ends_in (calculate_time code f w) w' -> R w w').
  { intros f w w' E. rewrite calculate_time_run in E. apply (Hcall f).
    destruct (call code f w) as [[] w1| |];
      destruct E as [[x E]|E]; inversion E; subst;
      [left; eauto|now right]. }
  intros w w' E. unfold run_tests in E.
  apply bind_ends in E as [E|(t & w0 & E0 & E)]; [discriminate|].
  inversion E0; subst; clear E0.
  apply bind_ends in E as [E|(d & w1 & E1 & E)].
  { apply (Htime (test_func (test_reg w0))). now right. }
  apply Htrans with w1.
  { apply (Htime (test_func (test_reg w0))). left; eauto. }
  apply bind_ends in E as [E|(t & w2 & E2 & E)]; [discriminate|].
  inversion E2; subst; clear E2.
  destruct (infos (test_reg w2)) as [|n l] eqn:El.
  { destruct E as [[x E]|E]; discriminate. }
  apply bind_ends in E as [E|(x & w3 & E3 & E)]; [discriminate|].
  inversion E3; subst; clear E3.
  pose proof (Hfill d (Nat.pred (length (n :: l))) w2) as Hf.
  rewrite El in Hf. eapply Htrans; [exact Hf|].
  revert E. apply for_range_ends_ind; [assumption..|].
  intros i v v' E.
  unfold run_tests_step in E.
  apply bind_ends in E as [E|(t & v0 & E0 & E)]; [discriminate|].
  inversion E0; subst; clear E0.
  destruct (infos (test_reg v0) !! i) as [m|];
    [|destruct E as [[x E]|E]; discriminate].
  destruct (func m) as [|[|id]].
  - destruct E as [[x E]|E]; discriminate.
  - destruct E as [[x E]|E]; inversion E; subst. apply Hrefl.
  - apply bind_ends in E as [E|(d' & v1 & F1 & E)].
    { apply (Htime (fn id)). now right. }
    apply Htrans with v1; [apply (Htime (fn id)); left; eauto|].
    apply bind_ends in E as [E|(t & v2 & F2 & E)]; [discriminate|].
    inversion F2; subst; clear F2.
    destruct (decide _); [|destruct E as [[x E]|E]; discriminate].
    destruct E as [[x E]|E]; inversion E; subst. apply Hfill.
Qed.

Lemma run_tests_aborted w w' :
  run_tests code w = Aborted w' ->
  exists w0, rc (test_reg w0) < 0 /\ w' = rc_violation w0.
Proof.
  assert (Hcall : forall f w w',
             call code f w = Aborted w' ->
             exists w0, rc (test_reg w0) < 0 /\ w' = rc_violation w0).
  { intros [|id] v v' E; simpl in E; [discriminate|].
    now apply exec_aborted in E. }
  assert (Htime : forall f w w',
             calculate_time code f w = Aborted w' ->
             exists w0, rc (test_reg w0) < 0 /\ w' = rc_violation w0).
  { intros f v v' E. rewrite calculate_time_run in E. apply (Hcall f v).
    destruct (call code f v); inversion E; reflexivity. }
  intros E. unfold run_tests in E.
  apply bind_is_aborted in E as [E|(t & w0 & E0 & E)]; [discriminate|].
  inversion E0; subst; clear E0.
  apply bind_is_aborted in E as [E|(d & w1 & E1 & E)];
    [now apply Htime in E|].
  apply bind_is_aborted in E as [E|(t & w2 & E2 & E)]; [discriminate|].
  inversion E2; subst; clear E2.
  destruct (infos (test_reg w2)) as [|n l]; [discriminate|].
  apply bind_is_aborted in E as [E|(x & w3 & E3 & E)]; [discriminate|].
  clear E3. revert E. generalize (length (n :: l)) at 2 as count.
  generalize 0%nat as i. intros i count. revert i w3.
  induction count as [|count IH]; intros i w3 E; [discriminate|].
  simpl in E. apply bind_is_aborted in E as [E|(y & w4 & E4 & E)];
    [|now apply IH in E].
  unfold run_tests_step in E.
  apply bind_is_aborted in E as [E|(t & w4 & E4 & E)]; [discriminate|].
  inversion E4; subst; clear E4.
  destruct (infos (test_reg w4) !! i) as [m|]; [|discriminate].
  destruct (func m) as [|[|id]]; try discriminate.
  apply bind_is_aborted in E as [E|(d' & w5 & E5 & E)];
    [now apply Htime in E|].
  apply bind_is_aborted in E as [E|(t & w6 & E6 & E)]; [discriminate|].
  destruct (decide _); discriminate.
Qed.
End RunnerFacts.

Lemma test_dtor_run location w :
  test_dtor location w
  = if rc (test_reg w) <? 0 then Aborted (rc_violation w)
    else Done tt (summarised w).
Proof.
  unfold test_dtor, bind. rewrite assert_rc_cases.
  destruct (rc (test_reg w) <? 0); reflexivity.
Qed.

(** ** The fatal path *)

Section FatalPath.
Context {Arg1 Arg2 : Type} `{Comparable Arg1 Arg2}.
Variable code : nat -> list (statement Arg1 Arg2).

Lemma TEST_MAIN_aborted location w w' :
  TEST_MAIN code location w = Aborted w' ->
  exists v, rc (test_reg v) < 0 /\ w' = rc_violation v.
Proof.
  unfold TEST_MAIN. intros E.
  apply bind_is_aborted in E as [E|([] & w1 & _ & E)].
  - now apply run_tests_aborted in E.
  - rewrite test_dtor_run in E.
    destruct (Z.ltb_spec (rc (test_reg w1)) 0) as [Hneg|_];
      [|discriminate].
    inversion E. eauto.
Qed.

Lemma exec_assertions_done (body : list (statement Arg1 Arg2)) w :
  forallb is_assert body = true -> exists w', exec body w = Done tt w'.
Proof.
  revert w. induction body as [|s body IH]; intros w Hall.
  - now exists w.
  - simpl in Hall. apply andb_prop in Hall as [Hs Hall].
    destruct s; try discriminate Hs.
    destruct (IH (asserted (predicate type val val2) type location w) Hall)
      as [w' E].
    exists w'. apply exec_cons_done. eexists. split; [apply assert_run|].
    exact E.
Qed.

(** C3.  When the guard check finds the resource counter negative it
    appends a [Critical] entry with the message
    "(RC < 0) Deallocating not allocated value", prints the report line
    and then the summary, and aborts: whatever was to follow is not
    executed.  No other path is fatal: an assertion always returns
    (having appended to the ledger), a body made of assertions always
    runs to its end, and every aborted execution of client code or of
    [TEST_MAIN] ends in the world that the guard leaves on a negative
    counter. *)
Theorem rc_guard_is_the_only_fatal_path location w :
  rc (test_reg w) < 0 ->
  assert_rc location w = Aborted (rc_violation w) /\
  infos (test_reg (rc_violation w))
  = infos (test_reg w)
      ++ [ {| ms_took := 0; result := init Critical;
              data := "(RC < 0) Deallocating not allocated value";
              func := indeterminate |} ] /\
  cout (rc_violation w)
  = cout w
      ++ report_line (current_location (test_reg w)) Critical
           "(RC < 0) Deallocating not allocated value"
      ++ summary_block (test_reg (rc_violation w))
           (system_clock w - main_ms (test_reg w)) /\
  (forall rest : list (statement Arg1 Arg2),
      (assert_rc location ;; exec rest) w = Aborted (rc_violation w)) /\
  (forall (s : statement Arg1 Arg2) rest w0 w1,
      exec_statement s w0 = Aborted w1 -> exec (s :: rest) w0 = Aborted w1) /\
  (forall type (val : Arg1) (val2 : Arg2) l w0,
      exists w1 suffix,
        assert type val val2 l w0 = Done tt w1 /\
        infos (test_reg w1) = infos (test_reg w0) ++ suffix) /\
  (forall (body : list (statement Arg1 Arg2)) w0,
      forallb is_assert body = true -> exists w1, exec body w0 = Done tt w1) /\
  (forall (body : list (statement Arg1 Arg2)) w0 w1,
      exec body w0 = Aborted w1 ->
      exists v, rc (test_reg v) < 0 /\ w1 = rc_violation v) /\
  (forall l w0 w1,
      TEST_MAIN code l w0 = Aborted w1 ->
      exists v, rc (test_reg v) < 0 /\ w1 = rc_violation v).
Proof.
  intros Hneg. repeat split.
  - now apply assert_rc_fires.
  - unfold rc_violation, summarised, recorded. simpl.
    rewrite <- List.app_assoc. reflexivity.
  - intros rest. apply bind_aborted. now apply assert_rc_fires.
  - intros s rest w0 w1 E. apply exec_cons_aborted. now left.
  - intros type val val2 l w0. eexists. 
    destruct (predicate type val val2) as [holds|] eqn:Hp.
    + exists [outcome_entry holds type]. split; [apply assert_run|].
      rewrite Hp. apply asserted_ledger.
    + exists []. split; [apply assert_run|].
      rewrite Hp. simpl. now rewrite List.app_nil_r.
  - intros body w0. apply exec_assertions_done.
  - intros body w0 w1. apply exec_aborted.
  - intros l w0 w1. apply TEST_MAIN_aborted.
Qed.
End FatalPath.

(** ** Placement of the guard check *)

Lemma ALLOC_guard_precedes : guard_precedes ALLOC.
Proof.
  intros location w. unfold bind. rewrite assert_rc_cases.
  destruct (rc (test_reg w) <? 0) eqn:E; [|reflexivity].
  rewrite ALLOC_run. unfold ALLOC_outcome. now rewrite E.
Qed.

(** C4, as the code has it.  [ALLOC] runs the guard check before it
    increments the counter: the check sees the counter as it was, and
    when it fires the counter has not been touched.  [DEALLOC] decrements
    first and runs the guard check on the decremented counter: it aborts
    exactly when the counter drops below zero, and the aborted world holds
    the decremented value.  The destructor runs the check once more and
    prints the summary when it passes. *)
Theorem guard_position_in_macros location w :
  ALLOC location w
  = (if rc (test_reg w) <? 0 then Aborted (rc_violation w)
     else if decide (rc (test_reg w) = INT_MAX) then Undefined
     else Done tt (with_rc (rc (test_reg w) + 1) w)) /\
  guard_precedes ALLOC /\
  (forall w', ALLOC location w = Aborted w' ->
              rc (test_reg w') = rc (test_reg w)) /\
  DEALLOC location w
  = (if decide (rc (test_reg w) = INT_MIN) then Undefined
     else if rc (test_reg w) - 1 <? 0
          then Aborted (rc_violation (with_rc (rc (test_reg w) - 1) w))
          else Done tt (with_rc (rc (test_reg w) - 1) w)) /\
  (forall w', DEALLOC location w = Aborted w' ->
              rc (test_reg w') = rc (test_reg w) - 1) /\
  test_dtor location w
  = (if rc (test_reg w) <? 0 then Aborted (rc_violation w)
     else Done tt (summarised w)).
Proof.
  split; [exact (ALLOC_run location w)|].
  split; [apply ALLOC_guard_precedes|].
  split.
  { intros w'. rewrite ALLOC_run. unfold ALLOC_outcome.
    destruct (rc (test_reg w) <? 0).
    - intros E. inversion E. reflexivity.
    - destruct (decide _); discriminate. }
  split; [exact (DEALLOC_run location w)|]. split; [|apply test_dtor_run].
  intros w'. rewrite DEALLOC_run. unfold DEALLOC_outcome.
  destruct (decide _); [discriminate|].
  destruct (rc (test_reg w) - 1 <? 0); [|discriminate].
  intros E. inversion E. reflexivity.
Qed.

(** C4 fails for the release macro.  On a fresh case (counter 0) a guard
    check placed before the decrement passes, yet [DEALLOC] aborts, and
    the aborted world already holds the decremented counter -1.  With the
    counter at -1, a check in front of [DEALLOC] would abort with the
    counter still at -1, whereas [DEALLOC] itself aborts with -2. *)
Lemma DEALLOC_guard_not_first :
  assert_rc default_location fresh_world = Done tt fresh_world /\
  (exists w', DEALLOC default_location fresh_world = Aborted w' /\
              rc (test_reg w') = -1) /\
  DEALLOC default_location fresh_world
  <> DEALLOC_guard_first default_location fresh_world /\
  (assert_rc default_location ;; DEALLOC default_location) negative_world
  <> DEALLOC default_location negative_world.
Proof.
  split; [reflexivity|]. split; [eexists; split; reflexivity|].
  split; vm_compute; discriminate.
Qed.

(** ** The error tally *)

Lemma count_entries_app p l1 l2 :
  count_entries p (l1 ++ l2) = count_entries p l1 + count_entries p l2.
Proof. induction l1 as [|n l1 IH]; simpl; [reflexivity|]. rewrite IH. lia. Qed.

Lemma count_errors_alter d i l :
  count_entries is_error (alter (set_ms_took d) i l) = count_entries is_error l.
Proof.
  revert i. induction l as [|n l IH]; intros [|i]; simpl; try reflexivity.
  f_equal. apply IH.
Qed.

Lemma tally_recorded res message w :
  tally_counts is_error w -> tally_counts is_error (recorded res message w).
Proof.
  unfold tally_counts, recorded. simpl. intros ->.
  rewrite count_entries_app. simpl.
  destruct res; simpl; rewrite ?Z.add_0_r; try reflexivity.
  rewrite Z.add_mod_idemp_l by lia. reflexivity.
Qed.

Section Tally.
Context {Arg1 Arg2 : Type} `{Comparable Arg1 Arg2}.
Variable code : nat -> list (statement Arg1 Arg2).

Lemma tally_statement (s : statement Arg1 Arg2) w w' :
  ends_in (exec_statement s w) w' ->
  tally_counts is_error w -> tally_counts is_error w'.
Proof.
  intros E Hw. destruct s as [type val val2 l|l|l|f|ns]; simpl in E.
  - rewrite assert_run in E. destruct E as [[x E]|E]; inversion E; subst.
    destruct (predicate type val val2) as [[|]|]; simpl;
      [apply tally_recorded; exact Hw..|exact Hw].
  - rewrite ALLOC_run in E. unfold ALLOC_outcome in E.
    destruct (rc (test_reg w) <? 0).
    + destruct E as [[x E]|E]; inversion E; subst.
      apply (tally_recorded Critical rc_message w Hw).
    + destruct (decide _); destruct E as [[x E]|E]; inversion E; subst.
      exact Hw.
  - rewrite DEALLOC_run in E. unfold DEALLOC_outcome in E.
    destruct (decide _); [destruct E as [[x E]|E]; discriminate|].
    destruct (rc (test_reg w) - 1 <? 0);
      destruct E as [[x E]|E]; inversion E; subst.
    + apply (tally_recorded Critical rc_message
               (with_rc (rc (test_reg w) - 1) w) Hw).
    + exact Hw.
  - destruct E as [[x E]|E]; inversion E; subst.
    unfold tally_counts in *. simpl. rewrite count_entries_app. simpl.
    now rewrite Z.add_0_r.
  - destruct E as [[x E]|E]; inversion E; subst. exact Hw.
Qed.

Lemma tally_exec (body : list (statement Arg1 Arg2)) w w' :
  ends_in (exec body w) w' ->
  tally_counts is_error w -> tally_counts is_error w'.
Proof.
  revert body w w'.
  apply (exec_ends_ind
           (fun w w' => tally_counts is_error w -> tally_counts is_error w'));
    [tauto|tauto|apply tally_statement].
Qed.

Lemma tally_TEST_MAIN location w w' :
  ends_in (TEST_MAIN code location w) w' ->
  tally_counts is_error w -> tally_counts is_error w'.
Proof.
  assert (Hrun : forall w w', ends_in (run_tests code w) w' ->
              tally_counts is_error w -> tally_counts is_error w').
  { apply (run_tests_ends_ind code
             (fun w w' => tally_counts is_error w
                          -> tally_counts is_error w'));
      [tauto|tauto|apply tally_statement|].
    intros d i v. unfold tally_counts. simpl.
    now rewrite count_errors_alter. }
  unfold TEST_MAIN. intros E Hw.
  apply bind_ends in E as [E|([] & w1 & E1 & E)].
  - apply (Hrun w w'); [now right|exact Hw].
  - assert (Hw1 : tally_counts is_error w1)
      by (apply (Hrun w w1); [left; eauto|exact Hw]).
    rewrite test_dtor_run in E.
    destruct (rc (test_reg w1) <? 0);
      destruct E as [[x E]|E]; inversion E; subst.
    + apply (tally_recorded Critical rc_message w1 Hw1).
    + exact Hw1.
Qed.

(** C2, as the code has it.  The error tally equals, modulo the width
    of [unsigned], the number of ledger entries whose result kind is
    [Error]; [Critical] entries are not counted.  This holds when the
    case is constructed and again whenever client code or [TEST_MAIN]
    has ended, normally or by abort.  The tally is left alone when an
    outcome is recorded and moves when the outcome is drawn: by one for
    [[FAILED]], not at all for [[SUCCESS]] and [[CRITICAL]]. *)
Theorem error_tally_counts_failed_entries :
  (forall f here sys hr,
      tally_counts is_error (initial_world f here sys hr)) /\
  (forall (body : list (statement Arg1 Arg2)) w w',
      tally_counts is_error w -> ends_in (exec body w) w' ->
      tally_counts is_error w') /\
  (forall location w w',
      tally_counts is_error w -> ends_in (TEST_MAIN code location w) w' ->
      tally_counts is_error w') /\
  (forall res message w,
      exists w1 w2,
        put_log res message w = Done (log_entry res message) w1 /\
        errors (test_reg w1) = errors (test_reg w) /\
        draw_case (log_entry res message) w1 = Done tt w2 /\
        errors (test_reg w2)
        = match res with
          | Error => (errors (test_reg w) + 1) mod 2 ^ 32
          | Success | Critical => errors (test_reg w)
          end).
Proof.
  split; [|split; [|split]].
  - intros f here sys hr. reflexivity.
  - intros body w w' Hw E. now apply (tally_exec body w w').
  - intros location w w' Hw E. now apply (tally_TEST_MAIN location w w').
  - intros res message w.
    destruct res; do 2 eexists; repeat (split; [reflexivity|]);
      reflexivity.
Qed.
End Tally.

(** C2 fails for [Critical] entries.  Releasing on a fresh case aborts
    with one [Critical] entry in the ledger while the tally, which the
    summary has just printed, is still 0. *)
Lemma critical_entry_is_not_tallied :
  exists w',
    exec (Arg1 := Z) (Arg2 := Z) [Dealloc default_location] fresh_world
    = Aborted w' /\
    errors (test_reg w') = 0 /\
    count_entries is_error_or_critical (infos (test_reg w')) = 1 /\
    ~ tally_counts is_error_or_critical w'.
Proof.
  eexists. split; [reflexivity|]. split; [reflexivity|].
  split; [reflexivity|]. unfold tally_counts. vm_compute. discriminate.
Qed.

(** ** The runner and an empty ledger *)

Section EmptyLedger.
Context {Arg1 Arg2 : Type} `{Comparable Arg1 Arg2}.
Variable code : nat -> list (statement Arg1 Arg2).

Lemma run_tests_after_body w w1 :
  call code (test_func (test_reg w)) w = Done tt w1 ->
  run_tests code w
  = match infos (test_reg w1) with
    | [] => Undefined
    | _ :: _ =>
        let d := to_unsigned (high_resolution_clock w1
                              - high_resolution_clock w) in
        let l := alter (set_ms_took d)
                   (Nat.pred (length (infos (test_reg w1))))
                   (infos (test_reg w1)) in
        for_range (run_tests_step code (length (infos (test_reg w1)))) 0
          (length (infos (test_reg w1))) (with_infos l w1)
    end.
Proof.
  intros E. unfold run_tests. unfold bind at 1. unfold this at 1.
  unfold bind at 1. rewrite calculate_time_run, E.
  unfold bind at 1. unfold this at 1.
  destruct (infos (test_reg w1)); reflexivity.
Qed.

(** C7.  [run_tests] takes [back()] of the ledger without looking at
    its size.  When the body returns with the ledger empty, as it does
    when nothing had been recorded or registered before and the body
    appended nothing, that access is undefined; hence [run_tests] has a
    defined outcome only if the ledger is non-empty once the body has
    run. *)
Theorem run_tests_needs_nonempty_ledger w w1 :
  call code (test_func (test_reg w)) w = Done tt w1 ->
  (infos (test_reg w1) = [] -> run_tests code w = Undefined) /\
  (infos (test_reg w) = [] ->
   length (infos (test_reg w1)) = length (infos (test_reg w)) ->
   run_tests code w = Undefined) /\
  (run_tests code w <> Undefined -> infos (test_reg w1) <> []).
Proof.
  intros E.
  assert (Hempty : infos (test_reg w1) = [] -> run_tests code w = Undefined).
  { intros El. rewrite (run_tests_after_body w w1 E), El. reflexivity. }
  split; [exact Hempty|]. split.
  - intros El Hlen. apply Hempty. rewrite El in Hlen.
    now destruct (infos (test_reg w1)).
  - intros Hdef El. apply Hdef, Hempty, El.
Qed.
End EmptyLedger.

(** ** Which location the reports show *)

Lemma bind_ignores_declaration {T U} (m : M T) (k : T -> M U) :
  ignores_declaration m -> (forall x, ignores_declaration (k x)) ->
  ignores_declaration (bind m k).
Proof.
  intros Hm Hk l w. unfold bind. rewrite Hm.
  destruct (m w) as [x w1| |]; simpl; [apply Hk|reflexivity..].
Qed.

Lemma for_range_ignores_declaration (body : nat -> M unit) count i :
  (forall j, ignores_declaration (body j)) ->
  ignores_declaration (for_range body i count).
Proof.
  intros Hbody. revert i. induction count as [|count IH]; intros i.
  - intros l w. reflexivity.
  - simpl. apply bind_ignores_declaration; [apply Hbody|]. intros _. apply IH.
Qed.

Lemma assert_rc_ignores_declaration location :
  ignores_declaration (assert_rc location).
Proof.
  intros l w. rewrite !assert_rc_cases. simpl.
  destruct (rc (test_reg w) <? 0); reflexivity.
Qed.

Lemma test_dtor_ignores_declaration location :
  ignores_declaration (test_dtor location).
Proof.
  intros l w. rewrite !test_dtor_run. simpl.
  destruct (rc (test_reg w) <? 0); reflexivity.
Qed.

Section Locations.
Context {Arg1 Arg2 : Type} `{Comparable Arg1 Arg2}.
Variable code : nat -> list (statement Arg1 Arg2).

Lemma exec_statement_ignores_declaration (s : statement Arg1 Arg2) :
  ignores_declaration (exec_statement s).
Proof.
  intros l w. destruct s as [type val val2 loc|loc|loc|f|ns]; simpl.
  - rewrite !assert_run.
    destruct (predicate type val val2) as [[|]|]; reflexivity.
  - rewrite !ALLOC_run. unfold ALLOC_outcome. simpl.
    destruct (rc (test_reg w) <? 0); [reflexivity|].
    destruct (decide _); reflexivity.
  - rewrite !DEALLOC_run. unfold DEALLOC_outcome. simpl.
    destruct (decide _); [reflexivity|].
    destruct (rc (test_reg w) - 1 <? 0); reflexivity.
  - reflexivity.
  - reflexivity.
Qed.

Lemma exec_ignores_declaration (body : list (statement Arg1 Arg2)) :
  ignores_declaration (exec body).
Proof.
  induction body as [|s body IH]; [intros l w; reflexivity|].
  simpl. apply bind_ignores_declaration;
    [apply exec_statement_ignores_declaration|intros _; exact IH].
Qed.

Lemma calculate_time_ignores_declaration f :
  ignores_declaration (calculate_time code f).
Proof.
  intros l w. rewrite !calculate_time_run.
  assert (E : call code f (redeclare l w)
              = map_outcome (redeclare l) (call code f w)).
  { destruct f; [reflexivity|apply exec_ignores_declaration]. }
  rewrite E. destruct (call code f w); reflexivity.
Qed.

Lemma run_tests_step_ignores_declaration size i :
  ignores_declaration (run_tests_step code size i).
Proof.
  intros l w. unfold run_tests_step. rewrite !bind_this.
  simpl. destruct (infos (test_reg w) !! i) as [n|]; [|reflexivity].
  destruct (func n) as [|[|id]]; try reflexivity.
  revert l w. apply bind_ignores_declaration;
    [apply calculate_time_ignores_declaration|].
  intros d l w. rewrite !bind_this. simpl.
  destruct (decide _); reflexivity.
Qed.

Lemma run_tests_ignores_declaration : ignores_declaration (run_tests code).
Proof.
  intros l w. unfold run_tests. rewrite !bind_this.
  simpl. generalize (test_func (test_reg w)) as f. intros f. revert l w. apply bind_ignores_declaration;
    [apply calculate_time_ignores_declaration|].
  intros d l w. rewrite !bind_this. simpl.
  destruct (infos (test_reg w)) as [|n rest]; [reflexivity|].
  revert l w. apply bind_ignores_declaration; [intros l w; reflexivity|].
  intros _. apply for_range_ignores_declaration.
  intros j. apply run_tests_step_ignores_declaration.
Qed.

Lemma TEST_MAIN_ignores_declaration location :
  ignores_declaration (TEST_MAIN code location).
Proof.
  apply bind_ignores_declaration; [apply run_tests_ignores_declaration|].
  intros _. apply test_dtor_ignores_declaration.
Qed.

Lemma statement_keeps_location (s : statement Arg1 Arg2) w w' :
  is_assert s = false -> ends_in (exec_statement s w) w' ->
  current_location (test_reg w') = current_location (test_reg w).
Proof.
  intros Hs E. destruct s as [type val val2 loc|loc|loc|f|ns];
    try discriminate Hs; simpl in E.
  - rewrite ALLOC_run in E. unfold ALLOC_outcome in E.
    destruct (rc (test_reg w) <? 0); [|destruct (decide _)];
      destruct E as [[x E]|E]; inversion E; reflexivity.
  - rewrite DEALLOC_run in E. unfold DEALLOC_outcome in E.
    destruct (decide _); [|destruct (rc (test_reg w) - 1 <? 0)];
      destruct E as [[x E]|E]; inversion E; reflexivity.
  - destruct E as [[x E]|E]; inversion E; reflexivity.
  - destruct E as [[x E]|E]; inversion E; reflexivity.
Qed.

Lemma asserted_location holds type location w :
  current_location (test_reg (asserted holds type location w)) = location.
Proof. destruct holds as [[|]|]; reflexivity. Qed.

Lemma exec_location (body : list (statement Arg1 Arg2)) w w' :
  exec body w = Done tt w' ->
  current_location (test_reg w')
  = match last_assert_location body with
    | Some l => l
    | None => current_location (test_reg w)
    end.
Proof.
  revert w. induction body as [|s body IH]; intros w E.
  - inversion E. reflexivity.
  - apply exec_cons_done in E as (w1 & E1 & E2).
    rewrite (IH w1 E2). simpl.
    destruct (last_assert_location body) as [l|]; [reflexivity|].
    pose proof (statement_keeps_location s w w1) as K.
    destruct s as [type val val2 loc|loc|loc|f|ns];
      try (apply K; [reflexivity|left; eauto]).
    simpl in E1. rewrite assert_run in E1. inversion E1.
    apply asserted_location.
Qed.
End Locations.

Section ReportedLocation.
Context {Arg1 Arg2 : Type} `{Comparable Arg1 Arg2}.
Variable code : nat -> list (statement Arg1 Arg2).

(** C9.  The summary prints the file name of [current_location], and an
    assertion's report line prints the file, line, column and function
    of the location the assertion was called with, which the assertion
    stores in [current_location].  No other statement changes that
    member, so after a body has run it holds the call site of the
    body's last assertion.  The members [line], [column], [file_name]
    and [function_name] that the constructor fills are read by nothing:
    overwriting them changes neither the outcome nor the output of
    client code or of [TEST_MAIN].  On a fresh case whose body makes no
    assertion, [current_location] is still default-constructed and the
    summary prints its empty file name. *)
Theorem reports_show_latest_assertion_site :
  (forall w,
      exists w',
        summary w = Done tt w' /\
        cout w'
        = cout w
            ++ [ OStr (nl ++ "[SUMMARY]" ++ nl)%string; OStr "File: ";
                 OStr (sl_file_name (current_location (test_reg w)));
                 OChar newline; OStr "Error/s: ";
                 ONum (errors (test_reg w)); OChar newline;
                 ONum (system_clock w - main_ms (test_reg w));
                 OStr ("ns" ++ nl)%string ]) /\
  (forall type (val : Arg1) (val2 : Arg2) location w holds,
      predicate type val val2 = Some holds ->
      exists w',
        assert type val val2 location w = Done tt w' /\
        current_location (test_reg w') = location /\
        cout w'
        = cout w
            ++ report_line location
                 (if holds then Success else Error)
                 (if holds then "OK" else failure_message type)) /\
  (forall (s : statement Arg1 Arg2) w w',
      is_assert s = false -> ends_in (exec_statement s w) w' ->
      current_location (test_reg w') = current_location (test_reg w)) /\
  (forall (body : list (statement Arg1 Arg2)) w w',
      exec body w = Done tt w' ->
      current_location (test_reg w')
      = match last_assert_location body with
        | Some l => l
        | None => current_location (test_reg w)
        end) /\
  (forall (body : list (statement Arg1 Arg2)),
      ignores_declaration (exec body)) /\
  (forall location, ignores_declaration (TEST_MAIN code location)) /\
  (forall f here sys hr (body : list (statement Arg1 Arg2)) w',
      last_assert_location body = None ->
      exec body (initial_world f here sys hr) = Done tt w' ->
      file_name (test_reg w') = sl_file_name here /\
      current_location (test_reg w') = default_location /\
      exists w'',
        summary w' = Done tt w'' /\
        cout w''
        = cout w'
            ++ [ OStr (nl ++ "[SUMMARY]" ++ nl)%string; OStr "File: ";
                 OStr ""; OChar newline; OStr "Error/s: ";
                 ONum (errors (test_reg w')); OChar newline;
                 ONum (system_clock w' - main_ms (test_reg w'));
                 OStr ("ns" ++ nl)%string ]).
Proof.
  split; [|split; [|split; [|split; [|split; [|split]]]]].
  - intros w. eexists. split; reflexivity.
  - intros type val val2 location w holds Hp. eexists.
    split; [apply assert_run|]. rewrite Hp.
    destruct holds; split; reflexivity.
  - intros s w w'. apply statement_keeps_location.
  - intros body w w'. apply exec_location.
  - intros body. apply exec_ignores_declaration.
  - intros location. apply TEST_MAIN_ignores_declaration.
  - intros f here sys hr body w' Hnone E.
    assert (Hloc : current_location (test_reg w') = default_location).
    { rewrite (exec_location body _ w' E), Hnone. reflexivity. }
    split; [|split; [exact Hloc|]].
    + pose proof (exec_ignores_declaration body here
                    (initial_world f default_location sys hr)) as Hd.
      change (redeclare here (initial_world f default_location sys hr))
        with (initial_world f here sys hr) in Hd.
      rewrite E in Hd.
      destruct (exec body (initial_world f default_location sys hr));
        inversion Hd. reflexivity.
    + eexists. split; [reflexivity|].
      unfold summarised, summary_block. simpl. rewrite Hloc. reflexivity.
Qed.
End ReportedLocation.

(** ** What client code does to the clock and to the ledger *)

Lemma with_infos_same w : with_infos (infos (test_reg w)) w = w.
Proof. destruct w as [[] ? ? ?]. reflexivity. Qed.

Lemma with_infos_twice l1 l2 w : with_infos l1 (with_infos l2 w) = with_infos l1 w.
Proof. reflexivity. Qed.

Lemma app_one_more {A} (l : list A) (x : A) : l ++ [x] <> l.
Proof.
  intros E. apply (f_equal length) in E. rewrite length_app in E.
  simpl in E. lia.
Qed.

Section ClientEffects.
Context {Arg1 Arg2 : Type} `{Comparable Arg1 Arg2}.
Implicit Types (body : list (statement Arg1 Arg2)).
Implicit Types (s : statement Arg1 Arg2).

Lemma exec_statement_clock s w w' :
  exec_statement s w = Done tt w' ->
  high_resolution_clock w' = high_resolution_clock w + work [s].
Proof.
  destruct s as [type val val2 loc|loc|loc|f|ns]; simpl; intros E.
  - rewrite assert_run in E. inversion E.
    destruct (predicate type val val2) as [[|]|]; simpl; lia.
  - rewrite ALLOC_run in E. unfold ALLOC_outcome in E.
    destruct (rc (test_reg w) <? 0); [discriminate|].
    destruct (decide _); inversion E. simpl. lia.
  - rewrite DEALLOC_run in E. unfold DEALLOC_outcome in E.
    destruct (decide _); [discriminate|].
    destruct (rc (test_reg w) - 1 <? 0); inversion E. simpl. lia.
  - inversion E. simpl. lia.
  - inversion E. simpl. lia.
Qed.

Lemma work_cons s body : work (s :: body) = work [s] + work body.
Proof. destruct s; simpl; lia. Qed.

Lemma exec_clock body w w' :
  exec body w = Done tt w' ->
  high_resolution_clock w' = high_resolution_clock w + work body.
Proof.
  revert w. induction body as [|s body IH]; intros w E.
  - inversion E. simpl. lia.
  - apply exec_cons_done in E as (w1 & E1 & E2).
    rewrite (IH w1 E2), (exec_statement_clock s w w1 E1), (work_cons s body).
    lia.
Qed.

Lemma exec_statement_grows s w w' :
  exec_statement s w = Done tt w' ->
  exists suffix, infos (test_reg w') = infos (test_reg w) ++ suffix.
Proof.
  destruct s as [type val val2 loc|loc|loc|f|ns]; simpl; intros E.
  - rewrite assert_run in E. inversion E.
    destruct (predicate type val val2) as [[|]|]; simpl; eauto.
    exists []. now rewrite List.app_nil_r.
  - rewrite ALLOC_run in E. unfold ALLOC_outcome in E.
    destruct (rc (test_reg w) <? 0); [discriminate|].
    destruct (decide _); inversion E. exists []. simpl.
    now rewrite List.app_nil_r.
  - rewrite DEALLOC_run in E. unfold DEALLOC_outcome in E.
    destruct (decide _); [discriminate|].
    destruct (rc (test_reg w) - 1 <? 0); inversion E. exists []. simpl.
    now rewrite List.app_nil_r.
  - inversion E. simpl. eauto.
  - inversion E. exists []. simpl. now rewrite List.app_nil_r.
Qed.

Lemma exec_grows body w w' :
  exec body w = Done tt w' ->
  exists suffix, infos (test_reg w') = infos (test_reg w) ++ suffix.
Proof.
  revert w. induction body as [|s body IH]; intros w E.
  - inversion E. exists []. now rewrite List.app_nil_r.
  - apply exec_cons_done in E as (w1 & E1 & E2).
    destruct (exec_statement_grows s w w1 E1) as [k1 K1].
    destruct (IH w1 E2) as [k2 K2].
    exists (k1 ++ k2). now rewrite K2, K1, List.app_assoc.
Qed.

Lemma same_length_same_ledger body w w' :
  exec body w = Done tt w' ->
  length (infos (test_reg w')) = length (infos (test_reg w)) ->
  infos (test_reg w') = infos (test_reg w).
Proof.
  intros E Hlen. destruct (exec_grows body w w' E) as [k K].
  rewrite K, length_app in Hlen. destruct k; [|simpl in Hlen; lia].
  now rewrite K, List.app_nil_r.
Qed.

(** Client code that pushes nothing does not look at the ledger. *)
Lemma exec_statement_frame s w w' l :
  exec_statement s w = Done tt w' ->
  infos (test_reg w') = infos (test_reg w) ->
  exec_statement s (with_infos l w) = Done tt (with_infos l w').
Proof.
  destruct s as [type val val2 loc|loc|loc|f|ns]; simpl; intros E Hsame.
  - rewrite assert_run in *. inversion E; subst; clear E.
    destruct (predicate type val val2) as [[|]|]; simpl in *;
      [now apply app_one_more in Hsame..|reflexivity].
  - rewrite ALLOC_run in *. unfold ALLOC_outcome in *. simpl.
    destruct (rc (test_reg w) <? 0); [discriminate|].
    destruct (decide _); inversion E. reflexivity.
  - rewrite DEALLOC_run in *. unfold DEALLOC_outcome in *. simpl.
    destruct (decide _); [discriminate|].
    destruct (rc (test_reg w) - 1 <? 0); inversion E. reflexivity.
  - inversion E; subst. simpl in Hsame. now apply app_one_more in Hsame.
  - inversion E. reflexivity.
Qed.

Lemma exec_frame body w w' l :
  exec body w = Done tt w' ->
  infos (test_reg w') = infos (test_reg w) ->
  exec body (with_infos l w) = Done tt (with_infos l w').
Proof.
  revert w. induction body as [|s body IH]; intros w E Hsame.
  - inversion E. reflexivity.
  - apply exec_cons_done in E as (w1 & E1 & E2).
    destruct (exec_statement_grows s w w1 E1) as [k1 K1].
    destruct (exec_grows body w1 w' E2) as [k2 K2].
    assert (k1 = [] /\ k2 = []) as [-> ->].
    { rewrite K2, K1, <- List.app_assoc in Hsame.
      apply (f_equal length) in Hsame. rewrite !length_app in Hsame.
      destruct k1, k2; simpl in Hsame; try lia. now split. }
    rewrite List.app_nil_r in K1, K2.
    apply exec_cons_done. exists (with_infos l w1). split.
    + now apply exec_statement_frame.
    + now apply IH.
Qed.
End ClientEffects.

(** ** The runner's loop over the ledger *)

Section RunnerLoop.
Context {Arg1 Arg2 : Type} `{Comparable Arg1 Arg2}.
Variable code : nat -> list (statement Arg1 Arg2).

Lemma calculate_time_measures_work id w w' :
  exec (code id) w = Done tt w' ->
  calculate_time code (fn id) w
  = Done (to_unsigned (work (code id))) w'.
Proof.
  intros E. rewrite calculate_time_run. simpl. rewrite E.
  rewrite (exec_clock (code id) w w' E). do 2 f_equal. lia.
Qed.

Lemma registered_alter d i l :
  registered (alter (set_ms_took d) i l) = registered l.
Proof.
  revert i. induction l as [|n l IH]; intros [|i]; simpl; try reflexivity.
  destruct (func n) as [|[|id]]; [apply IH| apply IH|].
  f_equal. apply IH.
Qed.

Lemma run_tests_loop size count i w w' :
  length (infos (test_reg w)) = size ->
  (i + count = size)%nat ->
  for_range (run_tests_step code size) i count w = Done tt w' ->
  exists w3,
    exec (concat (map code (registered (drop i (infos (test_reg w)))))) w
    = Done tt w3 /\
    infos (test_reg w3) = infos (test_reg w) /\
    w' = with_infos
           (take i (infos (test_reg w))
              ++ (backfill code <$> drop i (infos (test_reg w)))) w3.
Proof.
  revert i w w'. induction count as [|count IH]; intros i w w' Hlen Hi E.
  - inversion E; subst. exists w'.
    rewrite drop_ge, take_ge by lia. simpl.
    rewrite List.app_nil_r, with_infos_same. auto.
  - simpl in E. apply bind_is_done in E as ([] & wa & Es & E).
    unfold run_tests_step in Es. rewrite bind_this in Es.
    destruct (infos (test_reg w) !! i) as [e|] eqn:Hi_e; [|discriminate].
    rewrite (drop_S _ _ _ Hi_e).
    destruct (func e) as [|[|id]] eqn:Hf; [discriminate| |].
    + inversion Es; subst wa; clear Es.
      destruct (IH (S i) w w' Hlen ltac:(lia) E) as (w3 & E3 & L3 & ->).
      exists w3. simpl. rewrite Hf. split; [exact E3|]. split; [exact L3|].
      rewrite (take_S_r _ _ _ Hi_e), <- List.app_assoc. simpl.
      unfold backfill at 2. now rewrite Hf.
    + apply bind_is_done in Es as (d & wb & Et & Es).
      rewrite calculate_time_run in Et. simpl in Et.
      destruct (exec (code id) w) as [[] wb'| |] eqn:Eb; try discriminate.
      inversion Et; subst wb' d; clear Et.
      rewrite bind_this in Es.
      destruct (decide _) as [Hsame|]; [|discriminate].
      inversion Es; subst wa; clear Es.
      rewrite (exec_clock _ _ _ Eb) in E.
      replace (high_resolution_clock w + work (code id)
               - high_resolution_clock w) with (work (code id)) in E by lia.
      assert (Hl : infos (test_reg wb) = infos (test_reg w))
        by (apply (same_length_same_ledger _ _ _ Eb); lia).
      rewrite Hl in E. set (l := infos (test_reg w)) in *.
      set (d := to_unsigned (work (code id))) in *.
      change (set_test_reg (set_infos (alter (set_ms_took d) i l)
                              (test_reg wb)) wb)
        with (with_infos (alter (set_ms_took d) i l) wb) in E.
      destruct (IH (S i) (with_infos (alter (set_ms_took d) i l) wb) w')
        as (w3 & E3 & L3 & ->).
      { simpl. rewrite length_alter. exact Hlen. }
      { lia. }
      { exact E. }
      simpl in E3, L3 |- *.
      rewrite drop_alter_lt in E3 |- * by lia.
      exists (with_infos l w3). split; [|split; [reflexivity|]].
      * rewrite Hf. simpl. rewrite exec_app.
        rewrite (bind_done _ _ _ _ _ Eb).
        apply (exec_frame _ _ _ l) in E3; [|exact L3].
        rewrite with_infos_twice in E3.
        replace (with_infos l wb) with wb in E3
          by (rewrite <- Hl; symmetry; apply with_infos_same).
        exact E3.
      * rewrite with_infos_twice. f_equal.
        assert (Hi' : alter (set_ms_took d) i l !! i
                      = Some (set_ms_took d e))
          by (rewrite list_lookup_alter_eq; fold l in Hi_e;
              now rewrite Hi_e).
        rewrite (take_S_r _ _ _ Hi'), take_alter_ge by lia.
        rewrite <- List.app_assoc. simpl.
        unfold backfill at 2. rewrite Hf. reflexivity.
Qed.
End RunnerLoop.

Section RunnerClaim.
Context {Arg1 Arg2 : Type} `{Comparable Arg1 Arg2}.
Variable code : nat -> list (statement Arg1 Arg2).

Lemma run_tests_body_done w w' :
  run_tests code w = Done tt w' ->
  exists w1, call code (test_func (test_reg w)) w = Done tt w1.
Proof.
  unfold run_tests. rewrite bind_this. intros E.
  apply bind_is_done in E as (d & w1 & E1 & _).
  rewrite calculate_time_run in E1.
  destruct (call code (test_func (test_reg w)) w) as [[] w1'| |];
    inversion E1; subst. eauto.
Qed.

(** C5.  When [run_tests] returns, the following has happened, in this
    order.  The primary body was called and timed, and its duration
    [d0] was written into the last entry of the ledger as the body left
    it.  Then the functions registered in the ledger were called one
    after the other in ledger order, which is registration order, and
    each one's own measurement, the time that function itself took,
    was written into its entry.  In the final ledger every entry still
    has its result, message and function; an entry with a registered
    function holds that function's duration, and the last entry holds
    [d0] unless a registered function's duration replaced it. *)
Theorem run_tests_backfills_durations w w' :
  run_tests code w = Done tt w' ->
  exists w1 w3,
    call code (test_func (test_reg w)) w = Done tt w1 /\
    infos (test_reg w1) <> [] /\
    let d0 := to_unsigned (high_resolution_clock w1
                           - high_resolution_clock w) in
    let back := Nat.pred (length (infos (test_reg w1))) in
    let entered := alter (set_ms_took d0) back (infos (test_reg w1)) in
    exec (concat (map code (registered (infos (test_reg w1)))))
      (with_infos entered w1) = Done tt w3 /\
    infos (test_reg w3) = entered /\
    w' = with_infos (backfill code <$> entered) w3 /\
    (forall id v v',
        exec (code id) v = Done tt v' ->
        calculate_time code (fn id) v
        = Done (to_unsigned (high_resolution_clock v'
                             - high_resolution_clock v)) v' /\
        to_unsigned (high_resolution_clock v' - high_resolution_clock v)
        = to_unsigned (work (code id))) /\
    length (infos (test_reg w')) = length (infos (test_reg w1)) /\
    (forall i e,
        infos (test_reg w1) !! i = Some e ->
        exists e',
          infos (test_reg w') !! i = Some e' /\
          result e' = result e /\ data e' = data e /\ func e' = func e /\
          ms_took e'
          = match func e with
            | init (fn id) => to_unsigned (work (code id))
            | _ => if decide (i = back) then d0 else ms_took e
            end).
Proof.
  intros E. destruct (run_tests_body_done w w' E) as [w1 Eb].
  rewrite (run_tests_after_body code w w1 Eb) in E.
  destruct (infos (test_reg w1)) as [|n0 rest] eqn:El; [discriminate|].
  rewrite <- El in *. simpl in E.
  set (d0 := to_unsigned (high_resolution_clock w1
                          - high_resolution_clock w)) in *.
  set (back := Nat.pred (length (infos (test_reg w1)))) in *.
  set (entered := alter (set_ms_took d0) back (infos (test_reg w1))) in *.
  apply (run_tests_loop code (length (infos (test_reg w1)))) in E;
    [|simpl; unfold entered; apply length_alter|lia].
  destruct E as (w3 & E3 & L3 & ->). simpl in E3, L3.
  rewrite drop_0 in E3. unfold entered in E3 at 1.
  rewrite registered_alter in E3.
  exists w1, w3. split; [exact Eb|]. split; [rewrite El; discriminate|].
  simpl. split; [exact E3|]. split; [exact L3|].
  rewrite ?drop_0, ?take_0. simpl. split; [reflexivity|]. split.
  { intros id v v' Ev. rewrite calculate_time_run. simpl. rewrite Ev.
    split; [reflexivity|]. rewrite (exec_clock _ _ _ Ev).
    f_equal. lia. }
  split.
  { rewrite length_fmap. unfold entered. apply length_alter. }
  intros i e Hi. rewrite list_lookup_fmap. unfold entered.
  rewrite list_lookup_alter.
  assert (Hfill : forall n,
             result (backfill code n) = result n /\
             data (backfill code n) = data n /\
             func (backfill code n) = func n /\
             ms_took (backfill code n)
             = match func n with
               | init (fn id) => to_unsigned (work (code id))
               | _ => ms_took n
               end).
  { intros n. unfold backfill.
    destruct (func n) as [|[|id]] eqn:Hf; simpl; rewrite ?Hf; auto. }
  destruct (decide (back = i)) as [Hb|Hne].
  - rewrite Hb, Hi. simpl. eexists. split; [reflexivity|].
    destruct (Hfill (set_ms_took d0 e)) as (Hr & Hd & Hf & Hm).
    rewrite Hr, Hd, Hf, Hm. simpl. repeat split. unfold back in Hb.
    destruct (func e) as [|[|id]]; try reflexivity;
      (destruct (decide _); [reflexivity|congruence]).
  - rewrite Hi. simpl. eexists. split; [reflexivity|].
    destruct (Hfill e) as (Hr & Hd & Hf & Hm).
    rewrite Hr, Hd, Hf, Hm. repeat split. unfold back in Hne.
    destruct (func e) as [|[|id]]; try reflexivity;
      (destruct (decide _); [congruence|reflexivity]).
Qed.
End RunnerClaim.

(** ** Scenarios *)

(** [assert_eq(2+2, 4)] succeeds with "OK", [assert_gt(1, 5)] fails with
    its message, and the summary reports one error. *)
Example math_scenario :
  exists w',
    exec (demo_code math) (demo_world math) = Done tt w' /\
    infos (test_reg w')
    = [ log_entry Success "OK";
        log_entry Error "Given values are not greater, expected greater" ] /\
    errors (test_reg w') = 1 /\
    exists w'',
      summary w' = Done tt w'' /\
      cout w''
      = cout w' ++ [ OStr (nl ++ "[SUMMARY]" ++ nl)%string; OStr "File: ";
                     OStr "math.cpp"; OChar newline; OStr "Error/s: ";
                     ONum 1; OChar newline; ONum 0;
                     OStr ("ns" ++ nl)%string ].
Proof.
  eexists. split; [reflexivity|]. split; [reflexivity|].
  split; [reflexivity|]. eexists. split; reflexivity.
Qed.

(** Acquire, acquire, release, release leaves the counter at 0. *)
Example balanced_scenario :
  exists w',
    exec (Arg1 := Z) (Arg2 := Z)
      [Alloc math_site; Alloc math_site; Dealloc math_site;
       Dealloc math_site] fresh_world = Done tt w' /\
    rc (test_reg w') = 0 /\ infos (test_reg w') = [] /\ cout w' = [].
Proof. eexists. repeat split. Qed.

(** Releasing twice after one acquire aborts on the second release. *)
Example double_release_scenario :
  exists w',
    exec (Arg1 := Z) (Arg2 := Z)
      [Alloc math_site; Dealloc math_site; Dealloc math_site;
       Assert Eq 1 1 math_site] fresh_world = Aborted w' /\
    rc (test_reg w') = -1 /\
    infos (test_reg w') = [log_entry Critical rc_message].
Proof. eexists. repeat split. Qed.

(** On operands [a < b] of type [int], "less" and "less or equal"
    succeed, "greater" and "greater or equal" fail; on equal operands
    "equal" succeeds and "not equal" fails. *)
Lemma assert_on_ordered_integers (a b : Z) :
  (a < b ->
   predicate Lt a b = Some true /\ predicate LEq a b = Some true /\
   predicate Gt a b = Some false /\ predicate GEq a b = Some false) /\
  (a = b ->
   predicate Eq a b = Some true /\ predicate UnEq a b = Some false).
Proof.
  split; intros Hab; simpl.
  - repeat split; f_equal; unfold Z.gtb, Z.geb;
      try (apply Z.ltb_lt; lia); try (apply Z.leb_le; lia);
      destruct (Z.compare_spec a b); try reflexivity; lia.
  - subst. now rewrite Z.eqb_refl.
Qed.

(** ** The claims at concrete inputs *)

Lemma assert_evaluates_predicate_witness :
  predicate Gt 1 5 = Some false /\
  exists w',
    assert Gt 1 5 math_site fresh_world = Done tt w' /\
    infos (test_reg w')
    = [ {| ms_took := 0; result := init Error;
           data := "Given values are not greater, expected greater";
           func := indeterminate |} ].
Proof.
  assert (Hp : predicate Gt 1 5 = Some false) by reflexivity.
  split; [exact Hp|].
  destruct (assert_evaluates_predicate Gt 1 5 math_site fresh_world false Hp)
    as [[w' [E L]] _].
  exists w'. split; [exact E|exact L].
Defined.

Lemma error_tally_counts_failed_entries_witness :
  tally_counts is_error (demo_world math) /\
  ends_in (exec (demo_code math) (demo_world math))
    (asserted (Some false) Gt math_site
       (asserted (Some true) Eq math_site (demo_world math))) /\
  tally_counts is_error
    (asserted (Some false) Gt math_site
       (asserted (Some true) Eq math_site (demo_world math))).
Proof.
  assert (Hstart : tally_counts is_error (demo_world math))
    by reflexivity.
  assert (Hend : ends_in (exec (demo_code math) (demo_world math))
                   (asserted (Some false) Gt math_site
                      (asserted (Some true) Eq math_site (demo_world math))))
    by (left; exists tt; reflexivity).
  split; [exact Hstart|]. split; [exact Hend|].
  destruct (error_tally_counts_failed_entries demo_code) as (_ & Hbody & _).
  exact (Hbody _ _ _ Hstart Hend).
Defined.

Lemma rc_guard_is_the_only_fatal_path_witness :
  rc (test_reg negative_world) < 0 /\
  assert_rc math_site negative_world = Aborted (rc_violation negative_world).
Proof.
  assert (Hneg : rc (test_reg negative_world) < 0) by reflexivity.
  split; [exact Hneg|].
  destruct (rc_guard_is_the_only_fatal_path demo_code math_site
              negative_world Hneg) as [E _].
  exact E.
Defined.

Lemma guard_position_in_macros_witness :
  DEALLOC math_site fresh_world
  = Aborted (rc_violation (with_rc (-1) fresh_world)) /\
  ALLOC math_site fresh_world = Done tt (with_rc 1 fresh_world).
Proof.
  destruct (guard_position_in_macros math_site fresh_world)
    as (Ha & _ & _ & Hd & _).
  split; [exact Hd|exact Ha].
Defined.

Lemma run_tests_backfills_durations_witness :
  run_tests demo_code (demo_world timed)
  = Done tt
      (with_infos
         [ set_ms_took 10 (function_entry (fn first_sub));
           set_ms_took 32 (function_entry (fn second_sub)) ]
         (elapse 47 (demo_world timed))) /\
  exists w1,
    call demo_code (fn timed) (demo_world timed) = Done tt w1 /\
    infos (test_reg w1) <> [].
Proof.
  assert (E : run_tests demo_code (demo_world timed)
              = Done tt
                  (with_infos
                     [ set_ms_took 10 (function_entry (fn first_sub));
                       set_ms_took 32 (function_entry (fn second_sub)) ]
                     (elapse 47 (demo_world timed))))
    by reflexivity.
  split; [exact E|].
  destruct (run_tests_backfills_durations demo_code _ _ E)
    as (w1 & w3 & Eb & Hne & _).
  exists w1. split; [exact Eb|exact Hne].
Defined.

Lemma assert_appends_one_entry_witness :
  evaluated LEq = true /\
  exists entry w',
    assert LEq 7 3 math_site fresh_world = Done tt w' /\
    infos (test_reg w') = [entry].
Proof.
  assert (Hev : evaluated LEq = true) by reflexivity.
  split; [exact Hev|].
  destruct (assert_appends_one_entry LEq 7 3 math_site fresh_world Hev)
    as [(entry & w' & E & L) _].
  exists entry, w'. split; [exact E|exact L].
Defined.

Lemma run_tests_needs_nonempty_ledger_witness :
  call demo_code (fn idle) (demo_world idle) = Done tt (demo_world idle) /\
  infos (test_reg (demo_world idle)) = [] /\
  run_tests demo_code (demo_world idle) = Undefined.
Proof.
  assert (Hbody : call demo_code (fn idle) (demo_world idle)
                  = Done tt (demo_world idle)) by reflexivity.
  assert (Hnil : infos (test_reg (demo_world idle)) = []) by reflexivity.
  split; [exact Hbody|]. split; [exact Hnil|].
  destruct (run_tests_needs_nonempty_ledger demo_code (demo_world idle)
              (demo_world idle) Hbody) as [Hempty _].
  exact (Hempty Hnil).
Defined.

Lemma assert_twice_same_entries_witness :
  evaluated UnEq = true /\
  exists e1 e2 w',
    (assert UnEq 3 3 math_site ;; assert UnEq 3 3 math_site) fresh_world
    = Done tt w' /\
    infos (test_reg w') = [e1; e2] /\
    result e1 = result e2 /\ data e1 = data e2.
Proof.
  assert (Hev : evaluated UnEq = true) by reflexivity.
  split; [exact Hev|].
  destruct (assert_twice_same_entries UnEq 3 3 math_site fresh_world Hev)
    as (e1 & e2 & w' & E & L & Hr & Hd & _).
  exists e1, e2, w'. repeat split; assumption.
Defined.

Lemma reports_show_latest_assertion_site_witness :
  exec (demo_code math) (demo_world math)
  = Done tt
      (asserted (Some false) Gt math_site
         (asserted (Some true) Eq math_site (demo_world math))) /\
  current_location
    (test_reg
       (asserted (Some false) Gt math_site
          (asserted (Some true) Eq math_site (demo_world math))))
  = math_site.
Proof.
  assert (E : exec (demo_code math) (demo_world math)
              = Done tt
                  (asserted (Some false) Gt math_site
                     (asserted (Some true) Eq math_site (demo_world math))))
    by reflexivity.
  split; [exact E|].
  destruct (reports_show_latest_assertion_site demo_code)
    as (_ & _ & _ & Hbody & _).
  exact (Hbody _ _ _ E).
Defined.

Lemma assert_rc_noop_witness :
  0 <= rc (test_reg fresh_world) /\
  assert_rc math_site fresh_world = Done tt fresh_world.
Proof.
  assert (Hrc : 0 <= rc (test_reg fresh_world)) by (simpl; lia).
  split; [exact Hrc|].
  exact (assert_rc_noop math_site fresh_world Hrc).
Defined.

(** * Further properties of the header *)

(** ** What a returning body has recorded, printed and counted *)

Section DoneAccounting.
Context {Arg1 Arg2 : Type} `{Comparable Arg1 Arg2}.
Implicit Types (body : list (statement Arg1 Arg2)).

Lemma exec_appends_expected body w w' :
  exec body w = Done tt w' ->
  infos (test_reg w') = infos (test_reg w) ++ expected_entries body.
Proof.
  revert w. induction body as [|s body IH]; intros w E.
  - inversion E. simpl. now rewrite List.app_nil_r.
  - apply exec_cons_done in E as (w1 & E1 & E2).
    rewrite (IH w1 E2). clear IH E2.
    destruct s as [type val val2 loc|loc|loc|f|ns]; simpl in *.
    + rewrite assert_run in E1. inversion E1; subst; clear E1.
      destruct (predicate type val val2) as [holds|].
      * rewrite asserted_ledger, <- List.app_assoc. reflexivity.
      * reflexivity.
    + rewrite ALLOC_run in E1. unfold ALLOC_outcome in E1.
      destruct (rc (test_reg w) <? 0); [discriminate|].
      destruct (decide _); inversion E1. reflexivity.
    + rewrite DEALLOC_run in E1. unfold DEALLOC_outcome in E1.
      destruct (decide _); [discriminate|].
      destruct (rc (test_reg w) - 1 <? 0); inversion E1. reflexivity.
    + inversion E1. simpl. rewrite <- List.app_assoc. reflexivity.
    + inversion E1. reflexivity.
Qed.

(** X1.  The ledger is kept in issue order: when client code returns,
    the ledger is what it was, followed by one entry per evaluated
    assertion and per [test_function] call, in the order of the
    statements; acquisitions, releases and [MemLeak] assertions add
    nothing. *)
Theorem exec_ledger_in_issue_order body w w' :
  exec body w = Done tt w' ->
  infos (test_reg w') = infos (test_reg w) ++ expected_entries body.
Proof. apply exec_appends_expected. Qed.


(** X2.  Reports are printed in issue order, each with the call site of
    its own assertion: when client code returns, the output is what it
    was, followed by one report line per evaluated assertion showing that
    assertion's file, line, column and function, a duration of 0 and the
    assertion's message. *)
Theorem exec_output_in_issue_order body w w' :
  exec body w = Done tt w' ->
  cout w' = cout w ++ expected_output body.
Proof.
  revert w. induction body as [|s body IH]; intros w E.
  - inversion E. simpl. now rewrite List.app_nil_r.
  - apply exec_cons_done in E as (w1 & E1 & E2).
    rewrite (IH w1 E2). clear IH E2.
    destruct s as [type val val2 loc|loc|loc|f|ns]; simpl in *.
    + rewrite assert_run in E1. inversion E1; subst; clear E1.
      destruct (predicate type val val2) as [[|]|]; simpl;
        rewrite <- ?List.app_assoc; reflexivity.
    + rewrite ALLOC_run in E1. unfold ALLOC_outcome in E1.
      destruct (rc (test_reg w) <? 0); [discriminate|].
      destruct (decide _); inversion E1. reflexivity.
    + rewrite DEALLOC_run in E1. unfold DEALLOC_outcome in E1.
      destruct (decide _); [discriminate|].
      destruct (rc (test_reg w) - 1 <? 0); inversion E1. reflexivity.
    + inversion E1. reflexivity.
    + inversion E1. reflexivity.
Qed.

(** X3.  When client code returns, the error tally has grown by the
    number of its assertions whose predicate failed, modulo the width of
    [unsigned]; passing assertions, [MemLeak] assertions and every other
    statement leave it alone. *)
Theorem exec_tally_counts_failures body w w' :
  0 <= errors (test_reg w) < 2 ^ 32 ->
  exec body w = Done tt w' ->
  errors (test_reg w') = (errors (test_reg w) + failures body) mod 2 ^ 32.
Proof.
  revert w. induction body as [|s body IH]; intros w Hr E.
  - inversion E; subst. simpl. rewrite Z.add_0_r, Z.mod_small; lia.
  - apply exec_cons_done in E as (w1 & E1 & E2).
    assert (H1 : errors (test_reg w1)
                 = (errors (test_reg w) + failures [s]) mod 2 ^ 32).
    { destruct s as [type val val2 loc|loc|loc|f|ns]; simpl in *.
      - rewrite assert_run in E1. inversion E1; subst; clear E1.
        destruct (predicate type val val2) as [[|]|]; simpl;
          [|reflexivity|]; rewrite Z.add_0_r, Z.mod_small; lia.
      - rewrite ALLOC_run in E1. unfold ALLOC_outcome in E1.
        destruct (rc (test_reg w) <? 0); [discriminate|].
        destruct (decide _); inversion E1. simpl.
        rewrite Z.add_0_r, Z.mod_small; lia.
      - rewrite DEALLOC_run in E1. unfold DEALLOC_outcome in E1.
        destruct (decide _); [discriminate|].
        destruct (rc (test_reg w) - 1 <? 0); inversion E1. simpl.
        rewrite Z.add_0_r, Z.mod_small; lia.
      - inversion E1. simpl. rewrite Z.add_0_r, Z.mod_small; lia.
      - inversion E1. simpl. rewrite Z.add_0_r, Z.mod_small; lia. }
    rewrite (IH w1); [|rewrite H1; apply Z.mod_pos_bound; lia|exact E2].
    rewrite H1, Z.add_mod_idemp_l by lia. f_equal.
    assert (failures (s :: body) = failures [s] + failures body) as ->.
    { destruct s as [type val val2 loc|loc|loc|f|ns]; simpl; try lia.
      destruct (predicate type val val2) as [[|]|]; lia. }
    lia.
Qed.

(** X4.  When client code returns, the resource counter has changed by
    the number of its acquisitions minus the number of its releases;
    assertions and registrations do not touch it. *)
Theorem exec_counter_balance body w w' :
  exec body w = Done tt w' ->
  rc (test_reg w') = rc (test_reg w) + net_acquired body.
Proof.
  revert w. induction body as [|s body IH]; intros w E.
  - inversion E. simpl. lia.
  - apply exec_cons_done in E as (w1 & E1 & E2).
    rewrite (IH w1 E2). clear IH E2.
    destruct s as [type val val2 loc|loc|loc|f|ns]; simpl in *.
    + rewrite assert_run in E1. inversion E1; subst; clear E1.
      destruct (predicate type val val2) as [[|]|]; simpl; lia.
    + rewrite ALLOC_run in E1. unfold ALLOC_outcome in E1.
      destruct (rc (test_reg w) <? 0); [discriminate|].
      destruct (decide _); inversion E1. simpl. lia.
    + rewrite DEALLOC_run in E1. unfold DEALLOC_outcome in E1.
      destruct (decide _); [discriminate|].
      destruct (rc (test_reg w) - 1 <? 0); inversion E1. simpl. lia.
    + inversion E1. simpl. lia.
    + inversion E1. simpl. lia.
Qed.
End DoneAccounting.

(** ** Invariants of returning runs and the shape of aborted ones *)

Lemma for_range_outcome_ind (P Q : world -> Prop) (body : nat -> M unit) :
  (forall i w w', P w -> body i w = Done tt w' -> P w') ->
  (forall i w w', P w -> body i w = Aborted w' -> Q w') ->
  forall count i w, P w ->
    (forall w', for_range body i count w = Done tt w' -> P w') /\
    (forall w', for_range body i count w = Aborted w' -> Q w').
Proof.
  intros Hdone Habort. induction count as [|count IH]; intros i w Hw.
  - split; intros w' E; inversion E; subst. exact Hw.
  - simpl. split; intros w' E.
    + apply bind_is_done in E as ([] & w1 & E1 & E2).
      apply (IH (S i) w1); [apply (Hdone i w w1 Hw E1)|exact E2].
    + apply bind_is_aborted in E as [E|([] & w1 & E1 & E2)].
      * apply (Habort i w w' Hw E).
      * apply (IH (S i) w1); [apply (Hdone i w w1 Hw E1)|exact E2].
Qed.

Section OutcomeInduction.
Context {Arg1 Arg2 : Type} `{Comparable Arg1 Arg2}.
Variable code : nat -> list (statement Arg1 Arg2).
Variables P Q : world -> Prop.
Hypothesis Hdone :
  forall (s : statement Arg1 Arg2) w w',
    P w -> exec_statement s w = Done tt w' -> P w'.
Hypothesis Habort :
  forall (s : statement Arg1 Arg2) w w',
    P w -> exec_statement s w = Aborted w' -> Q w'.

Lemma exec_outcome_ind (body : list (statement Arg1 Arg2)) w :
  P w ->
  (forall w', exec body w = Done tt w' -> P w') /\
  (forall w', exec body w = Aborted w' -> Q w').
Proof.
  revert w. induction body as [|s body IH]; intros w Hw.
  - split; intros w' E; inversion E; subst. exact Hw.
  - split; intros w' E.
    + apply exec_cons_done in E as (w1 & E1 & E2).
      apply (IH w1); [apply (Hdone s w w1 Hw E1)|exact E2].
    + apply exec_cons_aborted in E as [E|(w1 & E1 & E2)].
      * apply (Habort s w w' Hw E).
      * apply (IH w1); [apply (Hdone s w w1 Hw E1)|exact E2].
Qed.

Hypothesis Hfill :
  forall d i w,
    0 <= d < 2 ^ 32 -> P w ->
    P (with_infos (alter (set_ms_took d) i (infos (test_reg w))) w).

Lemma calculate_time_outcome f w :
  P w ->
  (forall d w', calculate_time code f w = Done d w' ->
                P w' /\ 0 <= d < 2 ^ 32) /\
  (forall w', calculate_time code f w = Aborted w' -> Q w').
Proof.
  intros Hw. rewrite calculate_time_run.
  destruct f as [|id]; simpl; [split; intros; discriminate|].
  destruct (exec_outcome_ind (code id) w Hw) as [Hd Ha].
  destruct (exec (code id) w) as [[] w1| |]; split; intros; try discriminate.
  - split; [apply Hd; congruence|].
    match goal with E : Done _ _ = Done _ _ |- _ => inversion E end.
    apply Z.mod_pos_bound. lia.
  - apply Ha. congruence.
Qed.

Lemma run_tests_step_outcome size i w :
  P w ->
  (forall w', run_tests_step code size i w = Done tt w' -> P w') /\
  (forall w', run_tests_step code size i w = Aborted w' -> Q w').
Proof.
  intros Hw. unfold run_tests_step. rewrite bind_this.
  destruct (infos (test_reg w) !! i) as [e|];
    [|split; intros; discriminate].
  destruct (func e) as [|[|id]]; try (split; intros; discriminate).
  - split; intros w' E; inversion E; subst. exact Hw.
  - destruct (calculate_time_outcome (fn id) w Hw) as [Hd Ha].
    split; intros w' E.
    + apply bind_is_done in E as (d & w1 & E1 & E2).
      rewrite bind_this in E2. destruct (decide _); [|discriminate].
      inversion E2; subst. destruct (Hd d w1 E1) as [Hw1 Hrange].
      now apply Hfill.
    + apply bind_is_aborted in E as [E|(d & w1 & E1 & E2)].
      * apply (Ha w' E).
      * rewrite bind_this in E2. destruct (decide _); discriminate.
Qed.

Lemma run_tests_outcome_ind w :
  P w ->
  (forall w', run_tests code w = Done tt w' -> P w') /\
  (forall w', run_tests code w = Aborted w' -> Q w').
Proof.
  intros Hw. unfold run_tests. rewrite bind_this.
  destruct (calculate_time_outcome (test_func (test_reg w)) w Hw)
    as [Hd Ha].
  assert (Hloop : forall d w1,
             0 <= d < 2 ^ 32 -> P w1 ->
             forall w',
               (match infos (test_reg w1) with
                | [] => undefined_behaviour
                | _ :: _ =>
                    update (set_infos
                              (alter (set_ms_took d)
                                 (Nat.pred (length (infos (test_reg w1))))
                                 (infos (test_reg w1)))) ;;
                    for_range
                      (run_tests_step code (length (infos (test_reg w1))))
                      0 (length (infos (test_reg w1)))
                end) w1 = w' ->
               (forall v, w' = Done tt v -> P v) /\
               (forall v, w' = Aborted v -> Q v)).
  { intros d w1 Hrange Hw1 o Eo.
    destruct (infos (test_reg w1)) as [|n l] eqn:El.
    { subst o. split; intros; discriminate. }
    pose proof (Hfill d (Nat.pred (length (n :: l))) w1 Hrange Hw1) as Hw2.
    rewrite El in Hw2.
    destruct (for_range_outcome_ind P Q
                (run_tests_step code (length (n :: l)))
                (fun i v v' Hv => proj1 (run_tests_step_outcome _ i v Hv) v')
                (fun i v v' Hv => proj2 (run_tests_step_outcome _ i v Hv) v')
                (length (n :: l)) 0%nat _ Hw2) as [Hd2 Ha2].
    subst o. split; intros v E.
    - apply bind_is_done in E as ([] & w2 & E1 & E2).
      inversion E1; subst. apply (Hd2 v E2).
    - apply bind_is_aborted in E as [E|([] & w2 & E1 & E2)];
        [discriminate|].
      inversion E1; subst. apply (Ha2 v E2). }
  split; intros w' E.
  - apply bind_is_done in E as (d & w1 & E1 & E2).
    rewrite bind_this in E2. destruct (Hd d w1 E1) as [Hw1 Hrange].
    apply (proj1 (Hloop d w1 Hrange Hw1 _ eq_refl) w' E2).
  - apply bind_is_aborted in E as [E|(d & w1 & E1 & E2)].
    + apply (Ha w' E).
    + rewrite bind_this in E2. destruct (Hd d w1 E1) as [Hw1 Hrange].
      apply (proj2 (Hloop d w1 Hrange Hw1 _ eq_refl) w' E2).
Qed.

Hypothesis Hsummary : forall w, P w -> P (summarised w).
Hypothesis Hguard :
  forall w, P w -> rc (test_reg w) < 0 -> Q (rc_violation w).

Lemma TEST_MAIN_outcome_ind location w :
  P w ->
  (forall w', TEST_MAIN code location w = Done tt w' -> P w') /\
  (forall w', TEST_MAIN code location w = Aborted w' -> Q w').
Proof.
  intros Hw. destruct (run_tests_outcome_ind w Hw) as [Hd Ha].
  unfold TEST_MAIN. split; intros w' E.
  - apply bind_is_done in E as ([] & w1 & E1 & E2).
    rewrite test_dtor_run in E2.
    destruct (rc (test_reg w1) <? 0); inversion E2; subst.
    apply Hsummary, (Hd w1 E1).
  - apply bind_is_aborted in E as [E|([] & w1 & E1 & E2)].
    + apply (Ha w' E).
    + rewrite test_dtor_run in E2.
      destruct (Z.ltb_spec (rc (test_reg w1)) 0) as [Hneg|_];
        inversion E2; subst.
      apply Hguard; [apply (Hd w1 E1)|exact Hneg].
Qed.
End OutcomeInduction.

(** Case analysis on how one statement ended, [E] being the equation for
    its outcome. *)
Ltac statement_cases s E :=
  destruct s as [?type ?val ?val2 ?loc|?loc|?loc|?f|?ns]; simpl in E;
  [ rewrite assert_run in E
  | rewrite ALLOC_run in E; unfold ALLOC_outcome in E
  | rewrite DEALLOC_run in E; unfold DEALLOC_outcome in E
  | | ];
  repeat match type of E with
    | context [?c <? ?d] => destruct (Z.ltb_spec c d)
    | context [decide ?p] => destruct (decide p)
    end;
  try discriminate E; inversion E; subst; clear E;
  repeat match goal with
    | |- context [asserted ?p _ _ _] =>
        match p with
        | Some _ => fail 1
        | None => fail 1
        | _ => destruct p as [[|]|]
        end
    end.

Section RunInvariants.
Context {Arg1 Arg2 : Type} `{Comparable Arg1 Arg2}.
Variable code : nat -> list (statement Arg1 Arg2).

(** X5.  Starting from a non-negative resource counter, a run that
    returns leaves the counter non-negative, and a run that aborts leaves
    it at exactly -1: the abort happens at the first release that has no
    matching acquisition.  This holds for client code and for the whole of
    [TEST_MAIN]. *)
Theorem counter_stays_non_negative location
    (body : list (statement Arg1 Arg2)) w :
  0 <= rc (test_reg w) ->
  (forall w', exec body w = Done tt w' -> 0 <= rc (test_reg w')) /\
  (forall w', exec body w = Aborted w' -> rc (test_reg w') = -1) /\
  (forall w', TEST_MAIN code location w = Done tt w' ->
              0 <= rc (test_reg w')) /\
  (forall w', TEST_MAIN code location w = Aborted w' ->
              rc (test_reg w') = -1).
Proof.
  intros Hw.
  assert (Hdone : forall (s : statement Arg1 Arg2) v v',
             0 <= rc (test_reg v) -> exec_statement s v = Done tt v' ->
             0 <= rc (test_reg v')).
  { intros s v v' Hv E. statement_cases s E; simpl; lia. }
  assert (Habort : forall (s : statement Arg1 Arg2) v v',
             0 <= rc (test_reg v) -> exec_statement s v = Aborted v' ->
             rc (test_reg v') = -1).
  { intros s v v' Hv E. statement_cases s E; simpl; lia. }
  destruct (exec_outcome_ind (fun v => 0 <= rc (test_reg v))
              (fun v => rc (test_reg v) = -1) Hdone Habort body w Hw)
    as [Hd Ha].
  split; [exact Hd|]. split; [exact Ha|].
  apply (TEST_MAIN_outcome_ind code (fun v => 0 <= rc (test_reg v))
           (fun v => rc (test_reg v) = -1) Hdone Habort);
    [intros; assumption|intros; assumption|simpl; intros; lia|exact Hw].
Qed.

Lemma no_critical_snoc l e :
  no_critical l -> result e <> init Critical -> no_critical (l ++ [e]).
Proof.
  intros Hl He. apply Forall_app. split; [exact Hl|].
  apply Forall_cons. split; [exact He|apply Forall_nil_2].
Qed.

Lemma no_critical_alter d i l :
  no_critical l -> no_critical (alter (set_ms_took d) i l).
Proof. intros Hl. apply Forall_alter; [exact Hl|]. intros e _ He. exact He. Qed.

(** X6.  [Critical] is recorded only by the abort.  From a ledger
    without [Critical] entries, a run that returns has none, and a run
    that aborts has exactly one: the last entry, carrying the message
    "(RC < 0) Deallocating not allocated value". *)
Theorem critical_entry_only_ends_a_run location
    (body : list (statement Arg1 Arg2)) w :
  no_critical (infos (test_reg w)) ->
  (forall w', exec body w = Done tt w' ->
              no_critical (infos (test_reg w'))) /\
  (forall w', exec body w = Aborted w' ->
              exists l, infos (test_reg w')
                        = l ++ [log_entry Critical rc_message] /\
                        no_critical l) /\
  (forall w', TEST_MAIN code location w = Done tt w' ->
              no_critical (infos (test_reg w'))) /\
  (forall w', TEST_MAIN code location w = Aborted w' ->
              exists l, infos (test_reg w')
                        = l ++ [log_entry Critical rc_message] /\
                        no_critical l).
Proof.
  intros Hw.
  set (P := fun v => no_critical (infos (test_reg v))).
  set (Q := fun v => exists l, infos (test_reg v)
                               = l ++ [log_entry Critical rc_message] /\
                               no_critical l).
  assert (Hdone : forall (s : statement Arg1 Arg2) v v',
             P v -> exec_statement s v = Done tt v' -> P v').
  { unfold P. intros s v v' Hv E. statement_cases s E; simpl;
      try exact Hv; apply no_critical_snoc; try exact Hv; discriminate. }
  assert (Habort : forall (s : statement Arg1 Arg2) v v',
             P v -> exec_statement s v = Aborted v' -> Q v').
  { unfold P, Q. intros s v v' Hv E. statement_cases s E; simpl;
      eexists; split; try reflexivity; exact Hv. }
  destruct (exec_outcome_ind P Q Hdone Habort body w Hw) as [Hd Ha].
  split; [exact Hd|]. split; [exact Ha|].
  apply (TEST_MAIN_outcome_ind code P Q Hdone Habort); unfold P, Q; simpl.
  - intros d i v _ Hv. now apply no_critical_alter.
  - intros v Hv. exact Hv.
  - intros v Hv _. eexists. split; [reflexivity|exact Hv].
  - exact Hw.
Qed.

Lemma in_range_recorded res message w :
  in_range w -> in_range (recorded res message w).
Proof.
  intros (He & Hr & Hl). unfold in_range, recorded. simpl.
  split; [|split; [exact Hr|]].
  - destruct res; simpl; try exact He. apply Z.mod_pos_bound. lia.
  - apply Forall_app. split; [exact Hl|].
    apply Forall_cons. split; [simpl; lia|apply Forall_nil_2].
Qed.

(** X7.  The integer members stay within their C++ types: from a world
    in which the tally and every duration fit [unsigned] and the counter
    fits [int], every run of client code or of [TEST_MAIN] that ends,
    normally or by abort, ends in such a world again. *)
Theorem integer_members_stay_in_range location
    (body : list (statement Arg1 Arg2)) w w' :
  in_range w ->
  ends_in (exec body w) w' \/ ends_in (TEST_MAIN code location w) w' ->
  in_range w'.
Proof.
  intros Hw.
  assert (Hstep : forall (s : statement Arg1 Arg2) v v',
             in_range v ->
             exec_statement s v = Done tt v' \/ exec_statement s v = Aborted v' ->
             in_range v').
  { intros s v v' Hv [E|E]; statement_cases s E;
      try (apply in_range_recorded; simpl);
      try exact Hv;
      try (destruct Hv as (He & Hr & Hl); repeat split; simpl;
           unfold INT_MAX, INT_MIN in *; try lia; try exact Hl;
           try (apply Forall_app; split; [exact Hl|];
                apply Forall_cons; split; [simpl; lia|apply Forall_nil_2])). }
  assert (Hdone : forall (s : statement Arg1 Arg2) v v',
             in_range v -> exec_statement s v = Done tt v' -> in_range v')
    by (intros s v v' Hv E; apply (Hstep s v v' Hv); now left).
  assert (Habort : forall (s : statement Arg1 Arg2) v v',
             in_range v -> exec_statement s v = Aborted v' -> in_range v')
    by (intros s v v' Hv E; apply (Hstep s v v' Hv); now right).
  intros [[[[] E]|E]|[[[] E]|E]].
  - apply (proj1 (exec_outcome_ind in_range in_range Hdone Habort body w Hw)
             w' E).
  - apply (proj2 (exec_outcome_ind in_range in_range Hdone Habort body w Hw)
             w' E).
  - revert w' E. apply (TEST_MAIN_outcome_ind code in_range in_range
                          Hdone Habort); try exact Hw.
    + intros d i v Hd (He & Hr & Hl). repeat split; simpl; try lia.
      apply Forall_alter; [exact Hl|]. intros e _ _. simpl. lia.
    + intros v Hv. exact Hv.
    + intros v Hv _. apply (in_range_recorded Critical rc_message v Hv).
  - revert w' E. apply (TEST_MAIN_outcome_ind code in_range in_range
                          Hdone Habort); try exact Hw.
    + intros d i v Hd (He & Hr & Hl). repeat split; simpl; try lia.
      apply Forall_alter; [exact Hl|]. intros e _ _. simpl. lia.
    + intros v Hv. exact Hv.
    + intros v Hv _. apply (in_range_recorded Critical rc_message v Hv).
Qed.
End RunInvariants.

Lemma erase_duration_alter d i (l : list test_log_node) :
  erase_duration <$> alter (set_ms_took d) i l = erase_duration <$> l.
Proof.
  revert i. induction l as [|e l IH]; intros [|i]; simpl; try reflexivity.
  f_equal. apply IH.
Qed.

Section WholeRun.
Context {Arg1 Arg2 : Type} `{Comparable Arg1 Arg2}.
Variable code : nat -> list (statement Arg1 Arg2).

(** X8.  After construction nothing writes the start time, the body
    pointer, the list [rc_infos] or the four declaration members: they
    are the same at the end of every run of client code or of
    [TEST_MAIN], however it ends.  In particular [rc_infos] stays
    empty. *)
Theorem constructor_members_are_never_written location
    (body : list (statement Arg1 Arg2)) w w' :
  ends_in (exec body w) w' \/ ends_in (TEST_MAIN code location w) w' ->
  same_fixed_members w w'.
Proof.
  assert (Hnow : same_fixed_members w w) by (repeat split).
  assert (Hstep : forall (s : statement Arg1 Arg2) v v',
             same_fixed_members w v ->
             exec_statement s v = Done tt v' \/ exec_statement s v = Aborted v' ->
             same_fixed_members w v').
  { intros s v v' Hv [E|E]; statement_cases s E; exact Hv. }
  assert (Hdone : forall (s : statement Arg1 Arg2) v v',
             same_fixed_members w v -> exec_statement s v = Done tt v' ->
             same_fixed_members w v')
    by (intros s v v' Hv E; apply (Hstep s v v' Hv); now left).
  assert (Habort : forall (s : statement Arg1 Arg2) v v',
             same_fixed_members w v -> exec_statement s v = Aborted v' ->
             same_fixed_members w v')
    by (intros s v v' Hv E; apply (Hstep s v v' Hv); now right).
  intros [[[[] E]|E]|[[[] E]|E]].
  - apply (proj1 (exec_outcome_ind _ _ Hdone Habort body w Hnow) w' E).
  - apply (proj2 (exec_outcome_ind _ _ Hdone Habort body w Hnow) w' E).
  - revert w' E. apply (TEST_MAIN_outcome_ind code _ _ Hdone Habort);
      try exact Hnow; intros; assumption.
  - revert w' E. apply (TEST_MAIN_outcome_ind code _ _ Hdone Habort);
      try exact Hnow; intros; assumption.
Qed.

(** X9.  Output is only ever appended, and a run of [TEST_MAIN] that
    ends, normally or by abort, ends its output with the summary block of
    the final state: the file of the last assertion's call site, the
    final tally and the time since construction. *)
Theorem output_ends_with_the_summary location w w' :
  ends_in (TEST_MAIN code location w) w' ->
  exists reports,
    cout w'
    = cout w ++ reports
        ++ summary_block (test_reg w')
             (system_clock w' - main_ms (test_reg w')).
Proof.
  set (P := fun v => exists k, cout v = cout w ++ k).
  set (Q := fun v => exists k, cout v
                               = cout w ++ k
                                   ++ summary_block (test_reg v)
                                        (system_clock v
                                         - main_ms (test_reg v))).
  assert (Hnow : P w) by (exists []; now rewrite List.app_nil_r).
  assert (Hdone : forall (s : statement Arg1 Arg2) v v',
             P v -> exec_statement s v = Done tt v' -> P v').
  { unfold P. intros s v v' [k Hv] E. statement_cases s E; simpl;
      rewrite ?Hv, <- ?List.app_assoc; eauto. }
  assert (Hguard : forall v, P v -> Q (rc_violation v)).
  { unfold P, Q. intros v [k Hv].
    exists (k ++ report_line (current_location (test_reg v)) Critical
                   rc_message).
    unfold rc_violation, summarised, recorded. simpl.
    rewrite Hv, <- !List.app_assoc. reflexivity. }
  assert (Hrc : forall z v, P v -> P (with_rc z v))
    by (intros z v Hv; exact Hv).
  assert (Habort : forall (s : statement Arg1 Arg2) v v',
             P v -> exec_statement s v = Aborted v' -> Q v').
  { intros s v v' Hv E. statement_cases s E.
    - now apply Hguard.
    - apply Hguard. now apply Hrc. }
  assert (Hmain :
            (forall v, TEST_MAIN code location w = Done tt v ->
                       exists w1, P w1 /\ v = summarised w1) /\
            (forall v, TEST_MAIN code location w = Aborted v -> Q v)).
  { destruct (run_tests_outcome_ind code P Q Hdone Habort
                ltac:(intros; assumption) w Hnow) as [Hd Ha].
    unfold TEST_MAIN. split; intros v E.
    - apply bind_is_done in E as ([] & w1 & E1 & E2).
      rewrite test_dtor_run in E2.
      destruct (rc (test_reg w1) <? 0); inversion E2; subst.
      exists w1. split; [apply (Hd w1 E1)|reflexivity].
    - apply bind_is_aborted in E as [E|([] & w1 & E1 & E2)];
        [apply (Ha v E)|].
      rewrite test_dtor_run in E2.
      destruct (rc (test_reg w1) <? 0); inversion E2; subst.
      apply Hguard, (Hd w1 E1). }
  intros [[[] E]|E].
  - destruct (proj1 Hmain w' E) as (w1 & [k Hk] & ->).
    exists k. unfold summarised. simpl. rewrite Hk, <- List.app_assoc.
    reflexivity.
  - apply (proj2 Hmain w' E).
Qed.

(** X10.  Entries are never removed or rewritten.  At the end of every
    run of [TEST_MAIN], however it ends, the ledger still starts with the
    entries it had, each with its result, message and function; only
    durations may differ. *)
Theorem ledger_entries_are_kept location w w' :
  ends_in (TEST_MAIN code location w) w' ->
  exists appended,
    erase_duration <$> infos (test_reg w')
    = (erase_duration <$> infos (test_reg w)) ++ appended.
Proof.
  set (P := fun v => exists k, erase_duration <$> infos (test_reg v)
                               = (erase_duration <$> infos (test_reg w)) ++ k).
  assert (Hnow : P w) by (exists []; now rewrite List.app_nil_r).
  assert (Hsnoc : forall v e l,
             P v -> l = infos (test_reg v) ++ [e] ->
             exists k, erase_duration <$> l
                       = (erase_duration <$> infos (test_reg w)) ++ k).
  { intros v e l [k Hv] ->. rewrite fmap_app, Hv, <- List.app_assoc. eauto. }
  assert (Hstep : forall (s : statement Arg1 Arg2) v v',
             P v ->
             exec_statement s v = Done tt v' \/ exec_statement s v = Aborted v' ->
             P v').
  { unfold P. intros s v v' Hv [E|E]; statement_cases s E; simpl;
      try exact Hv; eapply Hsnoc; try exact Hv; reflexivity. }
  assert (Hdone : forall (s : statement Arg1 Arg2) v v',
             P v -> exec_statement s v = Done tt v' -> P v')
    by (intros s v v' Hv E; apply (Hstep s v v' Hv); now left).
  assert (Habort : forall (s : statement Arg1 Arg2) v v',
             P v -> exec_statement s v = Aborted v' -> P v')
    by (intros s v v' Hv E; apply (Hstep s v v' Hv); now right).
  assert (Hmain :
            (forall v, TEST_MAIN code location w = Done tt v -> P v) /\
            (forall v, TEST_MAIN code location w = Aborted v -> P v)).
  { apply (TEST_MAIN_outcome_ind code P P Hdone Habort); try exact Hnow.
    - unfold P. intros d i v _ [k Hv]. simpl.
      rewrite erase_duration_alter. eauto.
    - intros v Hv. exact Hv.
    - unfold P. intros v Hv _. simpl. eapply Hsnoc; [exact Hv|reflexivity]. }
  intros [[[] E]|E]; [apply (proj1 Hmain w' E)|apply (proj2 Hmain w' E)].
Qed.
End WholeRun.

(** ** The runner and entries made by assertions *)

Section RunnerAndAssertions.
Context {Arg1 Arg2 : Type} `{Comparable Arg1 Arg2}.
Variable code : nat -> list (statement Arg1 Arg2).

Lemma run_tests_loop_reads_func size count i w w' :
  length (infos (test_reg w)) = size ->
  (i + count = size)%nat ->
  for_range (run_tests_step code size) i count w = Done tt w' ->
  forall j e,
    (i <= j)%nat -> infos (test_reg w) !! j = Some e ->
    func e <> indeterminate.
Proof.
  revert i w w'. induction count as [|count IH];
    intros i w w' Hlen Hi E j e Hj Hje.
  - apply lookup_lt_Some in Hje. lia.
  - simpl in E. apply bind_is_done in E as ([] & wa & Es & E).
    unfold run_tests_step in Es. rewrite bind_this in Es.
    destruct (infos (test_reg w) !! i) as [ei|] eqn:Hie; [|discriminate].
    destruct (func ei) as [|[|id]] eqn:Hf; [discriminate| |].
    + inversion Es; subst wa; clear Es.
      destruct (decide (j = i)) as [->|Hne]; [congruence|].
      apply (IH (S i) w w' Hlen ltac:(lia) E j e ltac:(lia) Hje).
    + apply bind_is_done in Es as (d & wb & Et & Es).
      rewrite calculate_time_run in Et. simpl in Et.
      destruct (exec (code id) w) as [[] wb'| |] eqn:Eb; try discriminate.
      inversion Et; subst wb'; clear Et.
      rewrite bind_this in Es.
      destruct (decide _) as [Hsame|]; [|discriminate].
      inversion Es; subst wa; clear Es.
      assert (Hl : infos (test_reg wb) = infos (test_reg w))
        by (apply (same_length_same_ledger _ _ _ Eb); lia).
      destruct (decide (j = i)) as [->|Hne]; [congruence|].
      eapply (IH (S i) _ w' _ ltac:(lia) E j e ltac:(lia)).
      simpl. rewrite Hl, list_lookup_alter_ne by (intros ->; lia).
      exact Hje.
      Unshelve. simpl. rewrite length_alter, Hl. exact Hlen.
Qed.

Lemma assertion_entry_stays (body : list (statement Arg1 Arg2)) w w' :
  exec body w = Done tt w' ->
  (exists s, s ∈ body /\
             match s with
             | Assert type _ _ _ => evaluated type = true
             | _ => False
             end) ->
  exists e, e ∈ infos (test_reg w') /\ func e = indeterminate.
Proof.
  revert w. induction body as [|s body IH]; intros w E (s0 & Hin & Hs0).
  - now apply elem_of_nil in Hin.
  - apply exec_cons_done in E as (w1 & E1 & E2).
    apply elem_of_cons in Hin as [->|Hin]; [|apply (IH w1 E2); eauto].
    destruct s as [type val val2 loc|loc|loc|f|ns]; try contradiction.
    simpl in E1. rewrite assert_run in E1. inversion E1; subst; clear E1.
    destruct (evaluated_predicate type val val2 Hs0) as [holds Hp].
    destruct (exec_grows body _ w' E2) as [k Hk].
    exists (outcome_entry holds type). split.
    + rewrite Hk, Hp, asserted_ledger.
      apply elem_of_app. left. apply elem_of_app. right.
      apply list_elem_of_here.
    + destruct holds; reflexivity.
Qed.

(** X11.  [run_tests] reads [func] of every ledger entry, and [put_log]
    never initialises it.  So [run_tests] does not return normally when
    the ledger, after the body has run, holds an entry made by an
    assertion; in particular it does not when the body itself makes an
    evaluated assertion. *)
Theorem run_tests_reads_uninitialised_func w :
  (forall w1,
      call code (test_func (test_reg w)) w = Done tt w1 ->
      (exists e, e ∈ infos (test_reg w1) /\ func e = indeterminate) ->
      forall w', run_tests code w <> Done tt w') /\
  (forall id,
      test_func (test_reg w) = fn id ->
      (exists s, s ∈ code id /\
                 match s with
                 | Assert type _ _ _ => evaluated type = true
                 | _ => False
                 end) ->
      forall w', run_tests code w <> Done tt w').
Proof.
  assert (Hfirst : forall w1,
             call code (test_func (test_reg w)) w = Done tt w1 ->
             (exists e, e ∈ infos (test_reg w1) /\ func e = indeterminate) ->
             forall w', run_tests code w <> Done tt w').
  { intros w1 Eb (e & Hin & Hf) w' E.
    rewrite (run_tests_after_body code w w1 Eb) in E.
    destruct (infos (test_reg w1)) as [|n0 rest] eqn:El;
      [discriminate|].
    rewrite <- El in *. simpl in E.
    apply list_elem_of_lookup in Hin as [j Hj].
    set (d := to_unsigned (high_resolution_clock w1
                           - high_resolution_clock w)) in *.
    set (back := Nat.pred (length (infos (test_reg w1)))) in *.
    assert (Hj' : exists e', alter (set_ms_took d) back
                               (infos (test_reg w1)) !! j = Some e' /\
                             func e' = indeterminate).
    { rewrite list_lookup_alter. destruct (decide (back = j)) as [Hb|Hb].
      - rewrite Hb, Hj. simpl. eauto.
      - eauto. }
    destruct Hj' as (e' & Hj' & Hf').
    assert (Hlen : length (infos (test_reg
                             (with_infos
                                (alter (set_ms_took d) back
                                   (infos (test_reg w1))) w1)))
                   = length (infos (test_reg w1)))
      by (simpl; apply length_alter).
    apply (run_tests_loop_reads_func _ _ 0%nat _ _ Hlen (Nat.add_0_l _) E
             j e' (Nat.le_0_l j) Hj' Hf'). }
  split; [exact Hfirst|].
  intros id Hid Hs w' E.
  destruct (run_tests_body_done code w w' E) as [w1 Eb].
  refine (Hfirst w1 Eb _ w' E).
  rewrite Hid in Eb. simpl in Eb.
  apply (assertion_entry_stays (code id) w w1 Eb Hs).
Qed.

End RunnerAndAssertions.

(** ** Edge cases of [put] and of the guard *)

(** X12.  [put] draws the last ledger entry and needs one whose result
    has been set: on an empty ledger, or when the last entry was made by
    [test_function], its behaviour is undefined, and in every other case
    it returns and leaves the ledger as it was.  Its argument is never
    used. *)
Theorem put_needs_a_recorded_entry {Val : Type} (message : Val) w :
  (put message w = Undefined <->
   last (infos (test_reg w)) = None \/
   exists e, last (infos (test_reg w)) = Some e /\
             result e = indeterminate) /\
  (forall w', put message w <> Aborted w') /\
  (forall w', put message w = Done tt w' ->
              infos (test_reg w') = infos (test_reg w)) /\
  (forall f, (test_function f ;; put message) w = Undefined) /\
  (forall {Val2 : Type} (other : Val2), put other w = put message w).
Proof.
  split; [|split; [|split; [|split]]].
  - unfold put. rewrite bind_this.
    destruct (last (infos (test_reg w))) as [e|] eqn:El.
    + unfold draw_case, bind.
      destruct (result e) as [|[| |]] eqn:Hr; simpl; split;
        try discriminate; try (intros _; right; eauto; fail);
        try reflexivity;
        intros [Hn|(e' & He' & Hr')]; try discriminate; congruence.
    + split; [intros _; now left|reflexivity].
  - intros w'. unfold put. rewrite bind_this.
    destruct (last (infos (test_reg w))) as [e|]; [|discriminate].
    unfold draw_case, bind.
    destruct (result e) as [|[| |]]; discriminate.
  - intros w'. unfold put. rewrite bind_this.
    destruct (last (infos (test_reg w))) as [e|]; [|discriminate].
    unfold draw_case, bind.
    destruct (result e) as [|[| |]]; simpl; intros E; inversion E;
      reflexivity.
  - intros f. unfold bind. rewrite test_function_run.
    unfold put. rewrite bind_this. simpl. rewrite last_snoc. reflexivity.
  - reflexivity.
Qed.

(** X13.  The location handed to the guard check is never used: the
    guard, [ALLOC], [DEALLOC] and the destructor have the same outcome,
    ledger and output for every location argument.  The report line of a
    [Critical] entry shows [current_location], the call site of the last
    assertion. *)
Theorem guard_location_is_ignored l1 l2 w :
  assert_rc l1 w = assert_rc l2 w /\
  ALLOC l1 w = ALLOC l2 w /\
  DEALLOC l1 w = DEALLOC l2 w /\
  test_dtor l1 w = test_dtor l2 w /\
  (rc (test_reg w) < 0 ->
   exists w',
     assert_rc l1 w = Aborted w' /\
     cout w'
     = cout w
         ++ report_line (current_location (test_reg w)) Critical rc_message
         ++ summary_block (test_reg w')
              (system_clock w - main_ms (test_reg w))).
Proof.
  split; [now rewrite !assert_rc_cases|].
  split; [now rewrite !ALLOC_run|].
  split; [now rewrite !DEALLOC_run|].
  split; [now rewrite !test_dtor_run|].
  intros Hneg. eexists. split; [now apply assert_rc_fires|].
  unfold rc_violation, summarised, recorded. simpl.
  rewrite <- List.app_assoc. reflexivity.
Qed.

(** X14.  An acquisition followed by a release, or a release followed by
    an acquisition, puts the world back exactly as it was, whenever the
    counter is non-negative and the first step neither overflows nor
    drives it below zero. *)
Theorem acquire_release_round_trip l1 l2 w :
  (0 <= rc (test_reg w) < INT_MAX ->
   (ALLOC l1 ;; DEALLOC l2) w = Done tt w) /\
  (0 < rc (test_reg w) <= INT_MAX ->
   (DEALLOC l1 ;; ALLOC l2) w = Done tt w).
Proof.
  unfold INT_MAX. split; intros Hrc; unfold bind.
  - rewrite ALLOC_run. unfold ALLOC_outcome.
    destruct (Z.ltb_spec (rc (test_reg w)) 0); [lia|].
    destruct (decide _) as [E|_]; [unfold INT_MAX in E; lia|].
    rewrite DEALLOC_run. unfold DEALLOC_outcome. simpl.
    destruct (decide _) as [E|_]; [unfold INT_MIN in E; lia|].
    destruct (Z.ltb_spec (rc (test_reg w) + 1 - 1) 0); [lia|].
    replace (rc (test_reg w) + 1 - 1) with (rc (test_reg w)) by lia.
    destruct w as [[] ? ? ?]. reflexivity.
  - rewrite DEALLOC_run. unfold DEALLOC_outcome.
    destruct (decide _) as [E|_]; [unfold INT_MIN in E; lia|].
    destruct (Z.ltb_spec (rc (test_reg w) - 1) 0); [lia|].
    rewrite ALLOC_run. unfold ALLOC_outcome. simpl.
    destruct (Z.ltb_spec (rc (test_reg w) - 1) 0); [lia|].
    destruct (decide _) as [E|_]; [unfold INT_MAX in E; lia|].
    replace (rc (test_reg w) - 1 + 1) with (rc (test_reg w)) by lia.
    destruct w as [[] ? ? ?]. reflexivity.
Qed.

(** ** The unevaluated kind and the integer instance *)

(** X15.  The kind [MemLeak] has no case in the switch: a call of
    [assert] with it evaluates nothing, appends nothing, prints nothing
    and leaves the tally alone; it only stores the call site. *)
Theorem assert_MemLeak_records_nothing {Arg1 Arg2 : Type}
    `{Comparable Arg1 Arg2} (val : Arg1) (val2 : Arg2) location w :
  exists w',
    assert MemLeak val val2 location w = Done tt w' /\
    infos (test_reg w') = infos (test_reg w) /\
    cout w' = cout w /\
    errors (test_reg w') = errors (test_reg w) /\
    rc (test_reg w') = rc (test_reg w) /\
    current_location (test_reg w') = location.
Proof.
  eexists. split; [apply assert_run|]. simpl. repeat split.
Qed.

Lemma assert_last_result {Arg1 Arg2 : Type} `{Comparable Arg1 Arg2}
    type (val : Arg1) (val2 : Arg2) location w holds :
  predicate type val val2 = Some holds ->
  exists w',
    assert type val val2 location w = Done tt w' /\
    last_result w' = Some (if holds then Success else Error).
Proof.
  intros Hp. eexists. split; [apply assert_run|].
  rewrite Hp. unfold last_result.
  rewrite asserted_ledger, last_snoc. destruct holds; reflexivity.
Qed.

(** X16.  On [int] operands the six convenience operations come in
    opposite pairs: of [assert_eq] and [assert_uneq], of [assert_lt] and
    [assert_geq], and of [assert_gt] and [assert_leq], exactly one
    records [Success] and the other [Error]; and [assert_gt(a, b)]
    records what [assert_lt(b, a)] records. *)
Theorem integer_assertions_pair_up (a b : Z) location w :
  let opposite (m1 m2 : M unit) :=
    exists w1 w2 r1 r2,
      m1 w = Done tt w1 /\ m2 w = Done tt w2 /\
      last_result w1 = Some r1 /\ last_result w2 = Some r2 /\
      ((r1 = Success /\ r2 = Error) \/ (r1 = Error /\ r2 = Success)) in
  opposite (assert_eq a b location) (assert_uneq a b location) /\
  opposite (assert_lt a b location) (assert_geq a b location) /\
  opposite (assert_gt a b location) (assert_leq a b location) /\
  exists w1 w2,
    assert_gt a b location w = Done tt w1 /\
    assert_lt b a location w = Done tt w2 /\
    last_result w1 = last_result w2.
Proof.
  unfold assert_eq, assert_uneq, assert_lt, assert_geq, assert_gt,
    assert_leq.
  assert (Hpair : forall t1 t2 h,
             predicate t1 a b = Some h ->
             predicate t2 a b = Some (negb h) ->
             exists w1 w2 r1 r2,
               assert t1 a b location w = Done tt w1 /\
               assert t2 a b location w = Done tt w2 /\
               last_result w1 = Some r1 /\ last_result w2 = Some r2 /\
               ((r1 = Success /\ r2 = Error)
                \/ (r1 = Error /\ r2 = Success))).
  { intros t1 t2 h H1 H2.
    destruct (assert_last_result t1 a b location w h H1) as (w1 & E1 & L1).
    destruct (assert_last_result t2 a b location w (negb h) H2)
      as (w2 & E2 & L2).
    exists w1, w2. do 2 eexists.
    split; [exact E1|]. split; [exact E2|].
    split; [exact L1|]. split; [exact L2|].
    destruct h; simpl; auto. }
  split; [|split; [|split]].
  - apply (Hpair Eq UnEq (a =? b)); reflexivity.
  - apply (Hpair Lt GEq (a <? b)); [reflexivity|].
    simpl. f_equal. unfold Z.geb. rewrite Z.ltb_compare.
    destruct (a ?= b); reflexivity.
  - apply (Hpair Gt LEq (a >? b)); [reflexivity|].
    simpl. f_equal. unfold Z.gtb. rewrite Z.leb_compare.
    destruct (a ?= b); reflexivity.
  - assert (H1 : predicate Gt a b = Some (a >? b)) by reflexivity.
    assert (H2 : predicate Lt b a = Some (b <? a)) by reflexivity.
    destruct (assert_last_result Gt a b location w (a >? b) H1)
      as (w1 & E1 & L1).
    destruct (assert_last_result Lt b a location w (b <? a) H2)
      as (w2 & E2 & L2).
    exists w1, w2. split; [exact E1|]. split; [exact E2|].
    rewrite L1, L2, Z.gtb_ltb. reflexivity.
Qed.

(** ** The further properties at concrete inputs *)

Lemma exec_ledger_in_issue_order_witness :
  exec (demo_code math) (demo_world math) = Done tt math_done /\
  infos (test_reg math_done)
  = infos (test_reg (demo_world math)) ++ expected_entries (demo_code math).
Proof.
  assert (E : exec (demo_code math) (demo_world math) = Done tt math_done)
    by reflexivity.
  split; [exact E|].
  exact (exec_ledger_in_issue_order (demo_code math) _ _ E).
Defined.

Lemma exec_output_in_issue_order_witness :
  exec (demo_code math) (demo_world math) = Done tt math_done /\
  cout math_done
  = cout (demo_world math) ++ expected_output (demo_code math).
Proof.
  assert (E : exec (demo_code math) (demo_world math) = Done tt math_done)
    by reflexivity.
  split; [exact E|].
  exact (exec_output_in_issue_order (demo_code math) _ _ E).
Defined.

Lemma exec_tally_counts_failures_witness :
  0 <= errors (test_reg (demo_world math)) < 2 ^ 32 /\
  exec (demo_code math) (demo_world math) = Done tt math_done /\
  errors (test_reg math_done)
  = (errors (test_reg (demo_world math)) + failures (demo_code math))
      mod 2 ^ 32.
Proof.
  assert (Hr : 0 <= errors (test_reg (demo_world math)) < 2 ^ 32)
    by (simpl; lia).
  assert (E : exec (demo_code math) (demo_world math) = Done tt math_done)
    by reflexivity.
  split; [exact Hr|]. split; [exact E|].
  exact (exec_tally_counts_failures (demo_code math) _ _ Hr E).
Defined.

Lemma exec_counter_balance_witness :
  exec (Arg1 := Z) (Arg2 := Z)
    [Alloc math_site; Alloc math_site; Dealloc math_site] fresh_world
  = Done tt (with_rc 1 fresh_world) /\
  rc (test_reg (with_rc 1 fresh_world))
  = rc (test_reg fresh_world)
    + net_acquired (Arg1 := Z) (Arg2 := Z)
        [Alloc math_site; Alloc math_site; Dealloc math_site].
Proof.
  assert (E : exec (Arg1 := Z) (Arg2 := Z)
                [Alloc math_site; Alloc math_site; Dealloc math_site]
                fresh_world
              = Done tt (with_rc 1 fresh_world)) by reflexivity.
  split; [exact E|].
  exact (exec_counter_balance _ _ _ E).
Defined.

Lemma counter_stays_non_negative_witness :
  0 <= rc (test_reg fresh_world) /\
  exec (Arg1 := Z) (Arg2 := Z) [Dealloc math_site] fresh_world
  = Aborted (rc_violation (with_rc (-1) fresh_world)) /\
  rc (test_reg (rc_violation (with_rc (-1) fresh_world))) = -1.
Proof.
  assert (Hrc : 0 <= rc (test_reg fresh_world)) by (simpl; lia).
  assert (E : exec (Arg1 := Z) (Arg2 := Z) [Dealloc math_site] fresh_world
              = Aborted (rc_violation (with_rc (-1) fresh_world)))
    by reflexivity.
  split; [exact Hrc|]. split; [exact E|].
  destruct (counter_stays_non_negative demo_code math_site
              [Dealloc math_site] fresh_world Hrc) as (_ & Ha & _).
  exact (Ha _ E).
Defined.

Lemma critical_entry_only_ends_a_run_witness :
  no_critical (infos (test_reg (demo_world math))) /\
  exec (demo_code math) (demo_world math) = Done tt math_done /\
  no_critical (infos (test_reg math_done)).
Proof.
  assert (Hn : no_critical (infos (test_reg (demo_world math))))
    by (simpl; apply Forall_nil_2).
  assert (E : exec (demo_code math) (demo_world math) = Done tt math_done)
    by reflexivity.
  split; [exact Hn|]. split; [exact E|].
  destruct (critical_entry_only_ends_a_run demo_code math_site
              (demo_code math) (demo_world math) Hn) as (Hd & _).
  exact (Hd _ E).
Defined.

Lemma integer_members_stay_in_range_witness :
  in_range (demo_world timed) /\
  ends_in (TEST_MAIN demo_code math_site (demo_world timed)) timed_done /\
  in_range timed_done.
Proof.
  assert (Hr : in_range (demo_world timed)).
  { unfold in_range, INT_MIN, INT_MAX. simpl.
    repeat split; try lia. apply Forall_nil_2. }
  assert (E : ends_in (TEST_MAIN demo_code math_site (demo_world timed))
                timed_done)
    by (left; exists tt; reflexivity).
  split; [exact Hr|]. split; [exact E|].
  exact (integer_members_stay_in_range demo_code math_site []
           (demo_world timed) timed_done Hr (or_intror E)).
Defined.

Lemma constructor_members_are_never_written_witness :
  ends_in (TEST_MAIN demo_code math_site (demo_world timed)) timed_done /\
  same_fixed_members (demo_world timed) timed_done.
Proof.
  assert (E : ends_in (TEST_MAIN demo_code math_site (demo_world timed))
                timed_done)
    by (left; exists tt; reflexivity).
  split; [exact E|].
  exact (constructor_members_are_never_written demo_code math_site []
           (demo_world timed) timed_done (or_intror E)).
Defined.

Lemma output_ends_with_the_summary_witness :
  ends_in (TEST_MAIN demo_code math_site (demo_world timed)) timed_done /\
  exists reports,
    cout timed_done
    = cout (demo_world timed) ++ reports
        ++ summary_block (test_reg timed_done)
             (system_clock timed_done - main_ms (test_reg timed_done)).
Proof.
  assert (E : ends_in (TEST_MAIN demo_code math_site (demo_world timed))
                timed_done)
    by (left; exists tt; reflexivity).
  split; [exact E|].
  exact (output_ends_with_the_summary demo_code math_site
           (demo_world timed) timed_done E).
Defined.

Lemma ledger_entries_are_kept_witness :
  ends_in (TEST_MAIN demo_code math_site (demo_world timed)) timed_done /\
  exists appended,
    erase_duration <$> infos (test_reg timed_done)
    = (erase_duration <$> infos (test_reg (demo_world timed))) ++ appended.
Proof.
  assert (E : ends_in (TEST_MAIN demo_code math_site (demo_world timed))
                timed_done)
    by (left; exists tt; reflexivity).
  split; [exact E|].
  exact (ledger_entries_are_kept demo_code math_site
           (demo_world timed) timed_done E).
Defined.

Lemma run_tests_reads_uninitialised_func_witness :
  test_func (test_reg (demo_world math)) = fn math /\
  ASSERT_EQ (2 + 2) 4 math_site ∈ demo_code math /\
  forall w', run_tests demo_code (demo_world math) <> Done tt w'.
Proof.
  assert (Hf : test_func (test_reg (demo_world math)) = fn math)
    by reflexivity.
  assert (Hin : ASSERT_EQ (2 + 2) 4 math_site ∈ demo_code math)
    by apply list_elem_of_here.
  split; [exact Hf|]. split; [exact Hin|].
  destruct (run_tests_reads_uninitialised_func demo_code (demo_world math))
    as [_ Hbody].
  apply (Hbody math Hf).
  exists (ASSERT_EQ (2 + 2) 4 math_site). split; [exact Hin|reflexivity].
Defined.

Lemma guard_location_is_ignored_witness :
  rc (test_reg negative_world) < 0 /\
  exists w',
    assert_rc math_site negative_world = Aborted w' /\
    cout w'
    = cout negative_world
        ++ report_line (current_location (test_reg negative_world))
             Critical rc_message
        ++ summary_block (test_reg w')
             (system_clock negative_world
              - main_ms (test_reg negative_world)).
Proof.
  assert (Hneg : rc (test_reg negative_world) < 0) by reflexivity.
  split; [exact Hneg|].
  destruct (guard_location_is_ignored math_site default_location
              negative_world) as (_ & _ & _ & _ & Hfire).
  exact (Hfire Hneg).
Defined.

Lemma acquire_release_round_trip_witness :
  0 <= rc (test_reg fresh_world) < INT_MAX /\
  (ALLOC math_site ;; DEALLOC math_site) fresh_world = Done tt fresh_world.
Proof.
  assert (Hrc : 0 <= rc (test_reg fresh_world) < INT_MAX)
    by (unfold INT_MAX; simpl; lia).
  split; [exact Hrc|].
  exact (proj1 (acquire_release_round_trip math_site math_site fresh_world)
           Hrc).
Defined.

